(** * RemoteServiceManager: GATT client service discovery and notification routing

    A shallow embedding of
    [src/pw_bluetooth_sapphire/host/gatt/remote_service_manager.cc].

    - The manager's fields ([services_], [pending_], [initialized_],
      [svc_watcher_]) are the fields of a record; member functions are
      functions that pass this record along.
    - [std::map<att::Handle, fbl::RefPtr<RemoteService>>] is an association
      list kept in ascending key order, with [find], [operator[]] assignment
      and [upper_bound] written out; iterators are positions in that list.
    - [std::queue<ServiceListRequest>] is a list, front first.
    - Every call that leaves the manager (to the ATT client, to a
      [RemoteService], to a caller-supplied callback) is appended to a trace,
      in program order, together with the write to [initialized_].
    - A lambda handed to the client is a function of the same name whose
      captured variables are its first arguments; the weak pointer [self] it
      captures is read from the [weak_valid] field. *)

From Stdlib Require Import ZArith List Bool Lia.
Import ListNotations.
Open Scope Z_scope.

(** ** Types of the ATT layer *)

Module att.

(** [att::Handle] is [uint16_t]; only compared, never computed with. *)
Definition Handle := Z.

(** [att::ErrorCode], one byte on the wire. *)
Definition ErrorCode := Z.

(** Modelled from the spec: the declaration of [att::ErrorCode] is not part
    of the sources at hand; "Unsupported Group Type" is ATT error 0x10. *)
Definition kUnsupportedGroupType : ErrorCode := 16.

(** Modelled from the spec: [HostError] is declared elsewhere; the manager
    only ever builds [kFailed] ("generic failure"), every other host error
    reaches it from the transport. *)
Inductive HostError : Type :=
| kFailed
| kTimedOut
| kLinkDisconnected
| kOtherHostError (code : Z).

(** [att::Status]: success, a host error, or an ATT protocol error. *)
Inductive Status : Type :=
| Success
| HostErr (e : HostError)
| ProtocolErr (code : ErrorCode).

(** [explicit operator bool] / [is_success()]. *)
Definition is_success (s : Status) : bool :=
  match s with Success => true | _ => false end.

Definition is_protocol_error (s : Status) : bool :=
  match s with ProtocolErr _ => true | _ => false end.

Definition protocol_error (s : Status) : ErrorCode :=
  match s with ProtocolErr c => c | _ => 0 end.

(** [bt_is_error(status, ...)]: logs and tells whether [status] failed. *)
Definition bt_is_error (s : Status) : bool := negb (is_success s).

End att.
Import att.

(** ** Services *)

Definition UUID := Z.

Inductive ServiceKind : Type := PRIMARY | SECONDARY.

(** [ServiceData]: what the client reports for one discovered service. *)
Record ServiceData : Type := mkServiceData {
  range_start : Handle;
  range_end : Handle;
  type : UUID
}.

(** [RemoteService], seen from the manager: the data it was built from. *)
Record RemoteService : Type := mkRemoteService {
  info : ServiceData
}.

Definition handle (svc : RemoteService) : Handle := range_start (info svc).
Definition uuid (svc : RemoteService) : UUID := type (info svc).

Definition ByteBuffer := list Byte.byte.

Definition ServiceList := list RemoteService.

(** ** The ordered map [ServiceMap] *)

Definition ServiceMap := list (Handle * RemoteService).

(** An iterator is a position; [begin] is 0 and [end] is the length. *)
Definition iterator := nat.

Definition map_begin (m : ServiceMap) : iterator := 0%nat.
Definition map_end (m : ServiceMap) : iterator := length m.

Definition map_empty (m : ServiceMap) : bool :=
  match m with [] => true | _ => false end.

(** [m.find(h)]: the record stored under key [h]; [None] stands for [end]. *)
Fixpoint map_find (h : Handle) (m : ServiceMap) : option RemoteService :=
  match m with
  | [] => None
  | (k, v) :: m' => if h =? k then Some v else map_find h m'
  end.

(** [m[h] = v]: insert at the place the order asks for, or assign. *)
Fixpoint map_assign (h : Handle) (v : RemoteService) (m : ServiceMap)
  : ServiceMap :=
  match m with
  | [] => [(h, v)]
  | (k, x) :: m' =>
      if h <? k then (h, v) :: (k, x) :: m'
      else if h =? k then (h, v) :: m'
      else (k, x) :: map_assign h v m'
  end.

(** [m.upper_bound(h)]: the first position whose key is greater than [h]. *)
Fixpoint upper_bound (h : Handle) (m : ServiceMap) : iterator :=
  match m with
  | [] => 0%nat
  | (k, _) :: m' => if h <? k then 0%nat else S (upper_bound h m')
  end.

(** [*iter]. *)
Definition deref (m : ServiceMap) (it : iterator)
  : option (Handle * RemoteService) := nth_error m it.

(** The records in iteration order. *)
Definition values (m : ServiceMap) : ServiceList := map snd m.

(** Keys strictly ascending: what makes the list a [std::map]. *)
Fixpoint keys_ascending (ks : list Handle) : bool :=
  match ks with
  | [] => true
  | k :: ks' =>
      match ks' with
      | [] => true
      | k' :: _ => (k <? k') && keys_ascending ks'
      end
  end.

(** Every record is stored under its own start handle. *)
Definition keyed_by_handle (m : ServiceMap) : bool :=
  forallb (fun kv => fst kv =? handle (snd kv)) m.

Definition catalog_ok (m : ServiceMap) : bool :=
  keys_ascending (map fst m) && keyed_by_handle m.

(** ** Pending list requests and the trace *)

(** A caller's [ServiceListCallback], named by a number. *)
Definition CallbackId := nat.

Record ServiceListRequest : Type := mkServiceListRequest {
  callback_ : CallbackId;
  uuids_ : list UUID
}.

Inductive Event : Type :=
| ClientSetNotificationHandler (bound : bool)
| ClientExchangeMTU
| ClientDiscoverServices (kind : ServiceKind)
| ClientDiscoverServicesWithUuids (kind : ServiceKind) (uuids : list UUID)
| SvcShutDown (svc : RemoteService)
| SvcHandleNotification (svc : RemoteService) (value_handle : Handle)
    (value : ByteBuffer)
| SvcWatcher (svc : RemoteService)
| UserInitCb (status : Status)
| ServiceListCb (cb : CallbackId) (status : Status) (result : ServiceList)
| SetInitialized.

(** ** The manager *)

Record Manager : Type := mkManager {
  services_ : ServiceMap;
  pending_ : list ServiceListRequest;
  initialized_ : bool;
  (** whether [svc_watcher_] holds a function *)
  svc_watcher_ : bool;
  (** whether a weak pointer made by [weak_ptr_factory_] is still valid *)
  weak_valid : bool;
  (** whether the client holds a notification handler of this manager *)
  notification_handler : bool;
  trace : list Event
}.

Definition emit (e : Event) (m : Manager) : Manager :=
  mkManager (services_ m) (pending_ m) (initialized_ m) (svc_watcher_ m)
    (weak_valid m) (notification_handler m) (trace m ++ [e]).

Definition set_services (s : ServiceMap) (m : Manager) : Manager :=
  mkManager s (pending_ m) (initialized_ m) (svc_watcher_ m)
    (weak_valid m) (notification_handler m) (trace m).

Definition set_pending (q : list ServiceListRequest) (m : Manager) : Manager :=
  mkManager (services_ m) q (initialized_ m) (svc_watcher_ m)
    (weak_valid m) (notification_handler m) (trace m).

(** [initialized_ = true]. *)
Definition set_initialized (m : Manager) : Manager :=
  mkManager (services_ m) (pending_ m) true (svc_watcher_ m)
    (weak_valid m) (notification_handler m) (trace m ++ [SetInitialized]).

Definition set_svc_watcher (b : bool) (m : Manager) : Manager :=
  mkManager (services_ m) (pending_ m) (initialized_ m) b
    (weak_valid m) (notification_handler m) (trace m).

Definition set_weak_valid (b : bool) (m : Manager) : Manager :=
  mkManager (services_ m) (pending_ m) (initialized_ m) (svc_watcher_ m)
    b (notification_handler m) (trace m).

(** [client_->SetNotificationHandler(...)]. *)
Definition SetNotificationHandler (bound : bool) (m : Manager) : Manager :=
  emit (ClientSetNotificationHandler bound)
    (mkManager (services_ m) (pending_ m) (initialized_ m) (svc_watcher_ m)
       (weak_valid m) bound (trace m)).

(** The constructor: empty catalog, empty queue, not initialized, and
    [OnNotification] bound as the client's notification handler. *)
Definition construct : Manager :=
  SetNotificationHandler true (mkManager [] [] false false true false []).

(** Modelled from the spec: [set_service_watcher] is defined in the header,
    which is not at hand; [SetDiscoveryWatcher(fn)] stores the function. *)
Definition set_service_watcher (m : Manager) : Manager :=
  set_svc_watcher true m.

(** ** [ServiceListRequest::Complete] *)

(** [std::find_if(first, last, pred)]: the first position where [pred]
    holds, or [last]. *)
Fixpoint find_if {A : Type} (pred : A -> bool) (l : list A) : iterator :=
  match l with
  | [] => 0%nat
  | x :: l' => if pred x then 0%nat else S (find_if pred l')
  end.

Definition vec_empty {A : Type} (l : list A) : bool :=
  match l with [] => true | _ => false end.

(** The body of the [for] loop: one catalog entry, [result] so far. *)
Definition Complete_step (uuids : list UUID) (result : ServiceList)
  (iter : Handle * RemoteService) : ServiceList :=
  let svc := snd iter in
  let pred := fun u : UUID => uuid svc =? u in
  if vec_empty uuids || negb (Nat.eqb (find_if pred uuids) (length uuids))
  then result ++ [snd iter]
  else result.

Definition Complete (r : ServiceListRequest) (status : Status)
  (services : ServiceMap) (m : Manager) : Manager :=
  let result : ServiceList := [] in
  if negb (is_success status) || map_empty services then
    emit (ServiceListCb (callback_ r) status result) m
  else
    let result := fold_left (Complete_step (uuids_ r)) services result in
    emit (ServiceListCb (callback_ r) status result) m.

(** ** [ClearServices], [AddService], [FindService], [ListServices] *)

Definition ClearServices (m : Manager) : Manager :=
  let services := services_ m in
  let m := set_services [] m in
  fold_left (fun m iter => emit (SvcShutDown (snd iter)) m) services m.

(** [allocated] tells whether [fbl::AdoptRef(new RemoteService(...))] gave a
    record. *)
Definition AddService (service_data : ServiceData) (allocated : bool)
  (m : Manager) : Manager :=
  let handle := range_start service_data in
  match map_find handle (services_ m) with
  | Some _ => m
  | None =>
      let svc := if allocated then Some (mkRemoteService service_data)
                 else None in
      match svc with
      | None => m
      | Some svc => set_services (map_assign handle svc (services_ m)) m
      end
  end.

Definition FindService (h : Handle) (m : Manager) : option RemoteService :=
  map_find h (services_ m).

Definition ListServices (uuids : list UUID) (callback : CallbackId)
  (m : Manager) : Manager :=
  let request := mkServiceListRequest callback uuids in
  if initialized_ m then Complete request Success (services_ m) m
  else set_pending (pending_ m ++ [request]) m.

(** ** The destructor *)

(** [while (!pending.empty()) { front().Complete(...); pop(); }] over the
    local queue [pending]. *)
Fixpoint complete_each (status : Status) (pending : list ServiceListRequest)
  (m : Manager) : Manager :=
  match pending with
  | [] => m
  | front :: rest =>
      complete_each status rest (Complete front status (services_ m) m)
  end.

Definition destroy (m : Manager) : Manager :=
  let m := SetNotificationHandler false m in
  let m := ClearServices m in
  let status := HostErr kFailed in
  let pending := pending_ m in
  let m := set_pending [] m in
  let m := complete_each status pending m in
  set_weak_valid false m.

(** ** [Initialize] and the continuations of the discovery sequence *)

(** The same loop over the member queue [self->pending_]; [q] is its
    content, popped as the loop goes. *)
Fixpoint drain_pending (status : Status) (q : list ServiceListRequest)
  (m : Manager) : Manager :=
  match q with
  | [] => m
  | front :: rest =>
      drain_pending status rest
        (set_pending rest (Complete front status (services_ m) m))
  end.

(** The lambda [init_cb]; [user_init_cb] is the caller's completion. *)
Definition init_cb (status : Status) (m : Manager) : Manager :=
  if negb (weak_valid m) then m
  else
    let m := set_initialized m in
    let m := emit (UserInitCb status) m in
    drain_pending status (pending_ m) m.

Definition DiscoverServicesOfKind (kind : ServiceKind)
  (service_uuids : list UUID) (m : Manager) : Manager :=
  if negb (vec_empty service_uuids)
  then emit (ClientDiscoverServicesWithUuids kind service_uuids) m
  else emit (ClientDiscoverServices kind) m.

(** The lambda [svc_cb] of [DiscoverServicesOfKind]. *)
Definition svc_cb (service_data : ServiceData) (allocated : bool)
  (m : Manager) : Manager :=
  if weak_valid m then AddService service_data allocated m else m.

(** The lambda [status_cb_wrapper] of [DiscoverServices]. *)
Definition status_cb_wrapper (status_cb : Status -> Manager -> Manager)
  (status : Status) (m : Manager) : Manager :=
  if negb (weak_valid m) then status_cb (HostErr kFailed) m
  else
    let m :=
      if bt_is_error status then ClearServices m
      else if svc_watcher_ m then
        fold_left (fun m iter => emit (SvcWatcher (snd iter)) m)
          (services_ m) m
      else m in
    status_cb status m.

(** The lambda [secondary_discov_cb]. *)
Definition secondary_discov_cb (cb : Status -> Manager -> Manager)
  (status : Status) (m : Manager) : Manager :=
  let status :=
    if is_protocol_error status
       && (protocol_error status =? kUnsupportedGroupType)
    then Success else status in
  cb status m.

(** The lambda [primary_discov_cb]. *)
Definition primary_discov_cb (status_cb : Status -> Manager -> Manager)
  (service_uuids : list UUID) (status : Status) (m : Manager) : Manager :=
  if negb (weak_valid m) || negb (is_success status) then
    status_cb_wrapper status_cb status m
  else
    DiscoverServicesOfKind SECONDARY service_uuids m.

Definition DiscoverServices (service_uuids : list UUID) (m : Manager)
  : Manager :=
  DiscoverServicesOfKind PRIMARY service_uuids m.

Definition Initialize (services : list UUID) (m : Manager) : Manager :=
  emit ClientExchangeMTU m.

(** The lambda handed to [ExchangeMTU]. *)
Definition exchange_mtu_cb (services : list UUID) (status : Status)
  (mtu : Z) (m : Manager) : Manager :=
  if negb (weak_valid m) then init_cb (HostErr kFailed) m
  else if bt_is_error status then init_cb status m
  else DiscoverServices services m.

(** ** [OnNotification] *)

(** [ZX_DEBUG_ASSERT] stops the program in a debug build and is no code at
    all otherwise. *)
Inductive Outcome : Type :=
| Returned (m : Manager)
| DebugAssertFailed.

(** The first argument of the member function (notification or indication)
    is not looked at and is left out; [debug_build] tells whether
    [ZX_DEBUG_ASSERT] is compiled in. *)
Definition OnNotification (debug_build : bool) (value_handle : Handle)
  (value : ByteBuffer) (m : Manager) : Outcome :=
  if map_empty (services_ m) then Returned m
  else
    let iter := upper_bound value_handle (services_ m) in
    let iter := if negb (Nat.eqb iter (map_begin (services_ m)))
                then Nat.pred iter else iter in
    match deref (services_ m) iter with
    | None => Returned m
    | Some (_, svc) =>
        if debug_build && negb (handle svc <=? value_handle)
        then DebugAssertFailed
        else if value_handle <=? range_end (info svc)
        then Returned (emit (SvcHandleNotification svc value_handle value) m)
        else Returned m
    end.

(** ** The ATT client, as far as the manager sees it *)

(** Modelled from the spec: the client ([gatt::Client]) is an external
    collaborator.  It calls the one registered notification handler for each
    inbound notification, and calls nothing once the handler was replaced by
    an empty one. *)
Definition client_notification (debug_build : bool) (value_handle : Handle)
  (value : ByteBuffer) (m : Manager) : Outcome :=
  if notification_handler m
  then OnNotification debug_build value_handle value m
  else Returned m.

(** Modelled from the spec: one discovery request is answered by zero or
    more service descriptors, each through the per-service callback, and then
    by one terminal status.  Each descriptor comes with the outcome of the
    allocation it leads to. *)
Record DiscoveryReply : Type := mkDiscoveryReply {
  found : list (ServiceData * bool);
  result : Status
}.

Definition deliver (ds : list (ServiceData * bool)) (m : Manager) : Manager :=
  fold_left (fun m d => svc_cb (fst d) (snd d) m) ds m.

(** Modelled from the spec: a whole initialization against a client that
    answers the MTU exchange with [mtu_status], then the primary and the
    secondary discovery request, each only if it was issued. *)
Definition run_Initialize (uuids : list UUID) (mtu_status : Status) (mtu : Z)
  (primary secondary : DiscoveryReply) (m : Manager) : Manager :=
  let m := Initialize uuids m in
  let m := exchange_mtu_cb uuids mtu_status mtu m in
  if weak_valid m && is_success mtu_status then
    let m := deliver (found primary) m in
    let m := primary_discov_cb init_cb uuids (result primary) m in
    if weak_valid m && is_success (result primary) then
      let m := deliver (found secondary) m in
      secondary_discov_cb (status_cb_wrapper init_cb) (result secondary) m
    else m
  else m.

(** ** What the specification says a list request yields *)

(** "Produce the ordered list of Service Records whose [uuid] is in the set;
    if the set is empty, include all records." *)
Definition in_filter (uuids : list UUID) (svc : RemoteService) : bool :=
  match uuids with
  | [] => true
  | _ => existsb (Z.eqb (uuid svc)) uuids
  end.

Definition matching_services (uuids : list UUID) (catalog : ServiceMap)
  : ServiceList :=
  filter (in_filter uuids) (values catalog).

(** What a request's callback receives under [status]. *)
Definition list_result (status : Status) (uuids : list UUID)
  (catalog : ServiceMap) : ServiceList :=
  if is_success status then matching_services uuids catalog else [].

Definition resolved (status : Status) (catalog : ServiceMap)
  (r : ServiceListRequest) : Event :=
  ServiceListCb (callback_ r) status (list_result status (uuids_ r) catalog).

(** Several events at once. *)
Definition emits (es : list Event) (m : Manager) : Manager :=
  mkManager (services_ m) (pending_ m) (initialized_ m) (svc_watcher_ m)
    (weak_valid m) (notification_handler m) (trace m ++ es).

(** The events of a successful completion, in the order the specification
    gives them: flag, watcher, completion, pending queries. *)
Definition claimed_success_events (m : Manager) : list Event :=
  [SetInitialized]
  ++ (if svc_watcher_ m then map SvcWatcher (values (services_ m)) else [])
  ++ [UserInitCb Success]
  ++ map (resolved Success (services_ m)) (pending_ m).

(** The same events in the order the code produces them. *)
Definition success_events (m : Manager) : list Event :=
  (if svc_watcher_ m then map SvcWatcher (values (services_ m)) else [])
  ++ [SetInitialized; UserInitCb Success]
  ++ map (resolved Success (services_ m)) (pending_ m).

(** The events of [init_cb] under a failure [status]. *)
Definition failure_events (status : Status) (m : Manager) : list Event :=
  [SetInitialized; UserInitCb status]
  ++ map (fun r => ServiceListCb (callback_ r) status []) (pending_ m).

Definition is_secondary_request (e : Event) : bool :=
  match e with
  | ClientDiscoverServices SECONDARY => true
  | ClientDiscoverServicesWithUuids SECONDARY _ => true
  | _ => false
  end.

(** One operation of the manager: a public member function, a private one,
    or one of the continuations it handed to the client. *)
Inductive step : Manager -> Manager -> Prop :=
| step_set_service_watcher m : step m (set_service_watcher m)
| step_Initialize uuids m : step m (Initialize uuids m)
| step_exchange_mtu_cb uuids st mtu m :
    step m (exchange_mtu_cb uuids st mtu m)
| step_svc_cb d a m : step m (svc_cb d a m)
| step_primary_discov_cb uuids st m :
    step m (primary_discov_cb init_cb uuids st m)
| step_secondary_discov_cb st m :
    step m (secondary_discov_cb (status_cb_wrapper init_cb) st m)
| step_AddService d a m : step m (AddService d a m)
| step_ClearServices m : step m (ClearServices m)
| step_ListServices uuids cb m : step m (ListServices uuids cb m)
| step_OnNotification dbg h v m m' :
    OnNotification dbg h v m = Returned m' -> step m m'
| step_destroy m : step m (destroy m).

Inductive reachable : Manager -> Prop :=
| reachable_construct : reachable construct
| reachable_step m m' : reachable m -> step m m' -> reachable m'.

(** The ways a discovery sequence aborts with [status]: the MTU exchange
    fails, primary discovery fails, or secondary discovery fails with an
    error that is not downgraded. *)
Inductive aborts (status : Status) : Manager -> Manager -> Prop :=
| aborts_mtu uuids mtu m :
    aborts status m (exchange_mtu_cb uuids status mtu m)
| aborts_primary uuids m :
    aborts status m (primary_discov_cb init_cb uuids status m)
| aborts_secondary m :
    status <> ProtocolErr kUnsupportedGroupType ->
    aborts status m (secondary_discov_cb (status_cb_wrapper init_cb) status m).

(** ** Concrete managers *)

Definition data_a : ServiceData := mkServiceData 10 15 161.
Definition data_b : ServiceData := mkServiceData 20 25 178.
Definition svc_a : RemoteService := mkRemoteService data_a.
Definition svc_b : RemoteService := mkRemoteService data_b.

(** A watcher is registered, two list requests wait, the MTU exchange and
    primary discovery (services at [10,15] and [20,25]) went well, and the
    reply to the secondary discovery request is awaited. *)
Definition ex_awaiting_secondary : Manager :=
  primary_discov_cb init_cb [] Success
    (deliver [(data_b, true); (data_a, true)]
       (exchange_mtu_cb [] Success 23
          (Initialize []
             (ListServices [178] 1%nat
                (ListServices [] 0%nat (set_service_watcher construct)))))).

(** The same manager once the peer answered "unsupported group type". *)
Definition ex_discovered : Manager :=
  secondary_discov_cb (status_cb_wrapper init_cb)
    (ProtocolErr kUnsupportedGroupType) ex_awaiting_secondary.

(** A manager destroyed while its MTU exchange is in flight. *)
Definition ex_destroyed : Manager := destroy (Initialize [] construct).

(** A manager destroyed while secondary discovery is in flight. *)
Definition ex_destroyed_late : Manager := destroy ex_awaiting_secondary.

(** A manager whose MTU exchange timed out with one list request waiting. *)
Definition ex_mtu_failed : Manager :=
  exchange_mtu_cb [] (HostErr kTimedOut) 23
    (Initialize [] (ListServices [] 0%nat construct)).

(** ** Callers and counters used by the further properties *)

(** Callers issuing list requests one after the other. *)
Definition issue (rs : list ServiceListRequest) (m : Manager) : Manager :=
  fold_left (fun m r => ListServices (uuids_ r) (callback_ r) m) rs m.

Definition is_discovery_request (e : Event) : bool :=
  match e with
  | ClientDiscoverServices _ => true
  | ClientDiscoverServicesWithUuids _ _ => true
  | _ => false
  end.

Definition is_watcher_call (e : Event) : bool :=
  match e with SvcWatcher _ => true | _ => false end.

Definition is_user_init_cb (e : Event) : bool :=
  match e with UserInitCb _ => true | _ => false end.

Definition count_events (p : Event -> bool) (l : list Event) : nat :=
  length (filter p l).

(** The record of the first descriptor in [ds] that starts at [h] and whose
    allocation went well. *)
Definition first_reported (h : Handle) (ds : list (ServiceData * bool))
  : option RemoteService :=
  option_map (fun d => mkRemoteService (fst d))
    (find (fun d => (range_start (fst d) =? h) && snd d) ds).

(** The status the sequence ends with, given the three replies. *)
Definition reported_status (mtu_status primary secondary : Status) : Status :=
  if negb (is_success mtu_status) then mtu_status
  else if negb (is_success primary) then primary
  else if is_protocol_error secondary
          && (protocol_error secondary =? kUnsupportedGroupType)
  then Success
  else secondary.

(** ** Definitions for the secondary phase and the requests to the client *)

Definition data_c : ServiceData := mkServiceData 30 35 195.
Definition svc_c : RemoteService := mkRemoteService data_c.

(** [ex_awaiting_secondary] after the peer reported one secondary service,
    [30,35], and before the terminal status of the secondary phase. *)
Definition ex_secondary_reported : Manager :=
  deliver [(data_c, true)] ex_awaiting_secondary.

(** The requests of the discovery sequence: the MTU exchange and the
    discovery requests. *)
Definition is_sequence_request (e : Event) : bool :=
  match e with
  | ClientExchangeMTU => true
  | ClientDiscoverServices _ => true
  | ClientDiscoverServicesWithUuids _ _ => true
  | _ => false
  end.

(** The discovery request for [kind] under the filter [uuids]: the one with
    UUIDs unless the filter is empty. *)
Definition discovery_request (kind : ServiceKind) (uuids : list UUID)
  : Event :=
  match uuids with
  | [] => ClientDiscoverServices kind
  | _ => ClientDiscoverServicesWithUuids kind uuids
  end.

(** * Lemmas *)

(** ** Traces *)

Lemma emit_emits e m : emit e m = emits [e] m.
Proof. reflexivity. Qed.

Lemma emits_emits es1 es2 m : emits es2 (emits es1 m) = emits (es1 ++ es2) m.
Proof. unfold emits; simpl. now rewrite app_assoc. Qed.

Lemma emits_nil m : emits [] m = m.
Proof. destruct m; unfold emits; simpl. now rewrite app_nil_r. Qed.

Lemma fold_emit (f : RemoteService -> Event) (l : ServiceMap) m :
  fold_left (fun m iter => emit (f (snd iter)) m) l m
  = emits (map f (values l)) m.
Proof.
  revert m; induction l as [|kv l IH]; intro m; simpl.
  - now rewrite emits_nil.
  - rewrite IH, emit_emits, emits_emits. reflexivity.
Qed.

(** ** [Complete] against the specification's filter *)

Lemma find_if_existsb {A : Type} (p : A -> bool) (l : list A) :
  negb (Nat.eqb (find_if p l) (length l)) = existsb p l.
Proof.
  induction l as [|x l IH]; simpl; [reflexivity|].
  destruct (p x); simpl; [reflexivity|]. exact IH.
Qed.

Lemma Complete_step_in_filter uuids acc iter :
  Complete_step uuids acc iter
  = if in_filter uuids (snd iter) then acc ++ [snd iter] else acc.
Proof.
  unfold Complete_step, in_filter.
  rewrite find_if_existsb.
  destruct uuids as [|u us]; reflexivity.
Qed.

Lemma fold_Complete_step uuids (l : ServiceMap) acc :
  fold_left (Complete_step uuids) l acc = acc ++ matching_services uuids l.
Proof.
  unfold matching_services, values.
  revert acc; induction l as [|kv l IH]; intro acc; simpl.
  - now rewrite app_nil_r.
  - rewrite IH, Complete_step_in_filter.
    destruct (in_filter uuids (snd kv)); simpl; [|reflexivity].
    now rewrite <- app_assoc.
Qed.

Lemma Complete_resolved r status services m :
  Complete r status services m = emit (resolved status services r) m.
Proof.
  unfold Complete, resolved, list_result.
  destruct (is_success status); simpl; [|reflexivity].
  destruct services as [|kv l]; [reflexivity|].
  cbv [map_empty]. now rewrite fold_Complete_step.
Qed.

Lemma in_filter_spec uuids svc :
  in_filter uuids svc = true <-> uuids = [] \/ In (uuid svc) uuids.
Proof.
  unfold in_filter. destruct uuids as [|u us].
  - split; auto.
  - rewrite existsb_exists. split.
    + intros [x [Hin Heq]]. apply Z.eqb_eq in Heq. right. now rewrite Heq.
    + intros [Hnil|Hin]; [discriminate|].
      exists (uuid svc). split; [assumption|apply Z.eqb_refl].
Qed.

Lemma list_result_failure status uuids catalog :
  is_success status = false -> list_result status uuids catalog = [].
Proof. unfold list_result. now intros ->. Qed.

Lemma matching_services_nil uuids : matching_services uuids [] = [].
Proof. reflexivity. Qed.

(** ** The loops over the queue *)

Lemma complete_each_emits status q m :
  complete_each status q m = emits (map (resolved status (services_ m)) q) m.
Proof.
  revert m; induction q as [|r q IH]; intro m; simpl.
  - now rewrite emits_nil.
  - rewrite IH, Complete_resolved, emit_emits, emits_emits. reflexivity.
Qed.

Lemma drain_pending_emits status q m :
  drain_pending status q m
  = emits (map (resolved status (services_ m)) q)
      (set_pending (match q with [] => pending_ m | _ => [] end) m).
Proof.
  revert m; induction q as [|r q IH]; intro m; simpl.
  - destruct m; unfold emits, set_pending; simpl. now rewrite app_nil_r.
  - rewrite IH, Complete_resolved. unfold emits, set_pending, emit; simpl.
    rewrite <- app_assoc. simpl. destruct q; reflexivity.
Qed.

(** ** [init_cb] *)

Lemma init_cb_dead status m : weak_valid m = false -> init_cb status m = m.
Proof. intro H. unfold init_cb. now rewrite H. Qed.

Lemma init_cb_live status m :
  weak_valid m = true ->
  init_cb status m
  = mkManager (services_ m) [] true (svc_watcher_ m) true
      (notification_handler m)
      (trace m ++ [SetInitialized; UserInitCb status]
       ++ map (resolved status (services_ m)) (pending_ m)).
Proof.
  intro H. unfold init_cb. rewrite H. simpl.
  rewrite drain_pending_emits. unfold emits, set_pending; simpl.
  rewrite H. repeat rewrite <- app_assoc. simpl.
  destruct (pending_ m); reflexivity.
Qed.

Lemma map_resolved_failure status catalog q :
  is_success status = false ->
  map (resolved status catalog) q
  = map (fun r => ServiceListCb (callback_ r) status []) q.
Proof.
  intro H. apply map_ext. intro r. unfold resolved.
  now rewrite list_result_failure.
Qed.

(** ** [ClearServices] *)

Lemma ClearServices_eq m :
  ClearServices m
  = emits (map SvcShutDown (values (services_ m))) (set_services [] m).
Proof. unfold ClearServices. now rewrite fold_emit. Qed.

(** ** The catalog as an ordered map *)

Lemma map_find_assign h k v s :
  map_find h (map_assign k v s)
  = if h =? k then Some v else map_find h s.
Proof.
  induction s as [|[k' x] s IH]; simpl.
  - reflexivity.
  - destruct (k <? k') eqn:Hlt; simpl.
    + reflexivity.
    + destruct (k =? k') eqn:Heq; simpl.
      * apply Z.eqb_eq in Heq; subst k'.
        destruct (h =? k); reflexivity.
      * rewrite IH. destruct (h =? k) eqn:Hhk; [|reflexivity].
        apply Z.eqb_eq in Hhk; subst h. now rewrite Heq.
Qed.

Lemma keys_ascending_cons k ks :
  keys_ascending (k :: ks) = true <->
  (forall k', In k' ks -> k < k') /\ keys_ascending ks = true.
Proof.
  revert k; induction ks as [|k1 ks IH]; intro k.
  - simpl. split; [intros _; split; [intros ? []|reflexivity]|reflexivity].
  - change (keys_ascending (k :: k1 :: ks))
      with ((k <? k1) && keys_ascending (k1 :: ks)).
    rewrite andb_true_iff, Z.ltb_lt. split.
    + intros [Hlt Hasc]. split; [|assumption].
      intros k' [<-|Hin]; [assumption|].
      apply IH in Hasc. destruct Hasc as [Hall _].
      specialize (Hall k' Hin). lia.
    + intros [Hall Hasc]. split; [|assumption].
      apply Hall. now left.
Qed.

Lemma keys_ascending_NoDup ks : keys_ascending ks = true -> NoDup ks.
Proof.
  induction ks as [|k ks IH]; intro H; [constructor|].
  apply keys_ascending_cons in H. destruct H as [Hall Hasc].
  constructor; [|now apply IH].
  intro Hin. specialize (Hall k Hin). lia.
Qed.

Lemma map_assign_keys h v s k :
  In k (map fst (map_assign h v s)) <-> k = h \/ In k (map fst s).
Proof.
  induction s as [|[k' x] s IH]; simpl.
  - intuition.
  - destruct (h <? k') eqn:Hlt; simpl; [intuition|].
    destruct (h =? k') eqn:Heq; simpl.
    + apply Z.eqb_eq in Heq; subst k'. intuition.
    + rewrite IH. intuition.
Qed.

Lemma map_assign_ascending h v s :
  keys_ascending (map fst s) = true ->
  keys_ascending (map fst (map_assign h v s)) = true.
Proof.
  induction s as [|[k x] s IH]; intro H; [reflexivity|].
  simpl in H. simpl.
  destruct (h <? k) eqn:Hlt.
  - change (keys_ascending (h :: k :: map fst s) = true).
    change (keys_ascending (h :: k :: map fst s))
      with ((h <? k) && keys_ascending (k :: map fst s)).
    now rewrite Hlt.
  - destruct (h =? k) eqn:Heq.
    + apply Z.eqb_eq in Heq; subst k. exact H.
    + simpl. apply keys_ascending_cons in H. destruct H as [Hall Hasc].
      apply keys_ascending_cons. split; [|now apply IH].
      intros k' Hin. apply map_assign_keys in Hin.
      destruct Hin as [->|Hin]; [|now apply Hall].
      apply Z.ltb_ge in Hlt. apply Z.eqb_neq in Heq. lia.
Qed.

Lemma map_assign_keyed h v s :
  h = handle v ->
  keyed_by_handle s = true -> keyed_by_handle (map_assign h v s) = true.
Proof.
  intros Hh. unfold keyed_by_handle.
  induction s as [|[k x] s IH]; simpl; intro H.
  - now rewrite Hh, Z.eqb_refl.
  - apply andb_true_iff in H. destruct H as [Hk Hs].
    destruct (h <? k); simpl.
    + rewrite Hk, Hs. now rewrite Hh, Z.eqb_refl.
    + destruct (h =? k); simpl.
      * rewrite Hs. now rewrite Hh, Z.eqb_refl.
      * rewrite Hk. now apply IH.
Qed.

Lemma map_assign_ok h v s :
  h = handle v -> catalog_ok s = true -> catalog_ok (map_assign h v s) = true.
Proof.
  unfold catalog_ok. intros Hh H.
  apply andb_true_iff in H. destruct H as [Ha Hk].
  apply andb_true_iff. split.
  - now apply map_assign_ascending.
  - now apply map_assign_keyed.
Qed.

Lemma catalog_ok_NoDup s :
  catalog_ok s = true ->
  NoDup (map fst s) /\ NoDup (map handle (values s)).
Proof.
  unfold catalog_ok. intro H.
  apply andb_true_iff in H. destruct H as [Ha Hk].
  assert (Hkeys : map handle (values s) = map fst s).
  { unfold values. rewrite map_map. apply map_ext_in.
    intros kv Hin. unfold keyed_by_handle in Hk.
    rewrite forallb_forall in Hk. specialize (Hk kv Hin).
    apply Z.eqb_eq in Hk. symmetry. exact Hk. }
  rewrite Hkeys. split; now apply keys_ascending_NoDup.
Qed.

(** ** The continuations of the discovery sequence *)

Lemma status_cb_wrapper_dead status_cb status m :
  weak_valid m = false ->
  status_cb_wrapper status_cb status m = status_cb (HostErr kFailed) m.
Proof. intro H. unfold status_cb_wrapper. now rewrite H. Qed.

Lemma status_cb_wrapper_success m :
  weak_valid m = true ->
  status_cb_wrapper init_cb Success m
  = mkManager (services_ m) [] true (svc_watcher_ m) true
      (notification_handler m) (trace m ++ success_events m).
Proof.
  intro H. unfold status_cb_wrapper, success_events. rewrite H. simpl.
  destruct (svc_watcher_ m) eqn:Hw.
  - rewrite fold_emit, init_cb_live by exact H.
    unfold emits; simpl. rewrite Hw. now rewrite <- app_assoc.
  - rewrite init_cb_live by exact H. now rewrite Hw.
Qed.

Lemma status_cb_wrapper_failure status m :
  weak_valid m = true ->
  is_success status = false ->
  status_cb_wrapper init_cb status m
  = mkManager [] [] true (svc_watcher_ m) true (notification_handler m)
      (trace m ++ map SvcShutDown (values (services_ m))
       ++ failure_events status m).
Proof.
  intros H Hs. unfold status_cb_wrapper, failure_events, bt_is_error.
  rewrite H, Hs. simpl.
  rewrite ClearServices_eq, init_cb_live by exact H.
  unfold emits, set_services; simpl.
  rewrite map_resolved_failure by exact Hs.
  now rewrite <- app_assoc.
Qed.

Lemma secondary_discov_cb_unsupported cb m :
  secondary_discov_cb cb (ProtocolErr kUnsupportedGroupType) m = cb Success m.
Proof. reflexivity. Qed.

Lemma secondary_discov_cb_other cb status m :
  status <> ProtocolErr kUnsupportedGroupType ->
  secondary_discov_cb cb status m = cb status m.
Proof.
  intro H. unfold secondary_discov_cb.
  destruct status as [|e|c]; try reflexivity. simpl.
  destruct (c =? kUnsupportedGroupType) eqn:Hc; [|reflexivity].
  apply Z.eqb_eq in Hc. now subst c.
Qed.

Lemma exchange_mtu_cb_failure uuids status mtu m :
  weak_valid m = true ->
  is_success status = false ->
  exchange_mtu_cb uuids status mtu m
  = mkManager (services_ m) [] true (svc_watcher_ m) true
      (notification_handler m) (trace m ++ failure_events status m).
Proof.
  intros H Hs. unfold exchange_mtu_cb, bt_is_error, failure_events.
  rewrite H, Hs. simpl. rewrite init_cb_live by exact H.
  now rewrite map_resolved_failure by exact Hs.
Qed.

Lemma primary_discov_cb_failure uuids status m :
  weak_valid m = true ->
  is_success status = false ->
  primary_discov_cb init_cb uuids status m
  = status_cb_wrapper init_cb status m.
Proof.
  intros H Hs. unfold primary_discov_cb. rewrite H, Hs. reflexivity.
Qed.

Lemma ListServices_initialized uuids cb m :
  initialized_ m = true ->
  ListServices uuids cb m
  = emit (ServiceListCb cb Success (matching_services uuids (services_ m))) m.
Proof.
  intro H. unfold ListServices. rewrite H, Complete_resolved. reflexivity.
Qed.

(** ** Adding services *)

Lemma AddService_duplicate d a m :
  map_find (range_start d) (services_ m) <> None -> AddService d a m = m.
Proof.
  intro H. unfold AddService.
  destruct (map_find (range_start d) (services_ m)); [reflexivity|].
  now contradiction H.
Qed.

Lemma AddService_weak_valid d a m :
  weak_valid (AddService d a m) = weak_valid m.
Proof.
  unfold AddService.
  destruct (map_find (range_start d) (services_ m)); [reflexivity|].
  destruct a; reflexivity.
Qed.

Lemma AddService_retains d a m h svc :
  map_find h (services_ m) = Some svc ->
  map_find h (services_ (AddService d a m)) = Some svc.
Proof.
  intro H. unfold AddService.
  destruct (map_find (range_start d) (services_ m)) eqn:Hf; [exact H|].
  destruct a; [|exact H]. simpl.
  rewrite map_find_assign.
  destruct (h =? range_start d) eqn:Heq; [|exact H].
  apply Z.eqb_eq in Heq; subst h. congruence.
Qed.

Lemma AddService_ok d a m :
  catalog_ok (services_ m) = true ->
  catalog_ok (services_ (AddService d a m)) = true.
Proof.
  intro H. unfold AddService.
  destruct (map_find (range_start d) (services_ m)); [exact H|].
  destruct a; [|exact H]. simpl.
  now apply map_assign_ok.
Qed.

Lemma deliver_weak_valid ds m : weak_valid (deliver ds m) = weak_valid m.
Proof.
  unfold deliver. revert m; induction ds as [|d ds IH]; intro m; simpl.
  - reflexivity.
  - rewrite IH. unfold svc_cb.
    destruct (weak_valid m) eqn:H; [|exact H].
    now rewrite AddService_weak_valid.
Qed.

Lemma deliver_retains ds m h svc :
  map_find h (services_ m) = Some svc ->
  map_find h (services_ (deliver ds m)) = Some svc.
Proof.
  unfold deliver. revert m; induction ds as [|d ds IH]; intros m H; simpl.
  - exact H.
  - apply IH. unfold svc_cb.
    destruct (weak_valid m); [|exact H].
    now apply AddService_retains.
Qed.

Lemma deliver_pending ds m : pending_ (deliver ds m) = pending_ m.
Proof.
  unfold deliver. revert m; induction ds as [|d ds IH]; intro m; simpl.
  - reflexivity.
  - rewrite IH. unfold svc_cb, AddService.
    destruct (weak_valid m); [|reflexivity].
    destruct (map_find _ _); [reflexivity|].
    destruct (snd d); reflexivity.
Qed.

Lemma deliver_trace ds m : trace (deliver ds m) = trace m.
Proof.
  unfold deliver. revert m; induction ds as [|d ds IH]; intro m; simpl.
  - reflexivity.
  - rewrite IH. unfold svc_cb, AddService.
    destruct (weak_valid m); [|reflexivity].
    destruct (map_find _ _); [reflexivity|].
    destruct (snd d); reflexivity.
Qed.

(** ** The candidate entry of [OnNotification] *)

(** Stepping back from a non-[begin] upper bound lands on an entry whose key
    is at most the handle; this needs no order on the list. *)
Lemma upper_bound_pred h s n :
  upper_bound h s = S n ->
  exists kv, nth_error s n = Some kv /\ fst kv <= h.
Proof.
  revert n; induction s as [|[k x] s IH]; intros n H; simpl in H.
  - discriminate.
  - destruct (h <? k) eqn:Hlt; [discriminate|].
    apply Z.ltb_ge in Hlt. injection H as H.
    destruct n as [|n'].
    + exists (k, x). split; [reflexivity|exact Hlt].
    + simpl. now apply IH.
Qed.

Lemma upper_bound_begin h s :
  keys_ascending (map fst s) = true ->
  upper_bound h s = 0%nat ->
  forall kv, In kv s -> h < fst kv.
Proof.
  destruct s as [|[k x] s]; intros Hasc H kv Hin; [destruct Hin|].
  simpl in H. destruct (h <? k) eqn:Hlt; [|discriminate].
  apply Z.ltb_lt in Hlt. simpl in Hasc.
  apply keys_ascending_cons in Hasc. destruct Hasc as [Hall _].
  destruct Hin as [<-|Hin]; [exact Hlt|].
  specialize (Hall (fst kv) (in_map fst _ _ Hin)). lia.
Qed.

(** In an ascending list that entry has the greatest key at most the
    handle. *)
Lemma upper_bound_greatest h s n kv :
  keys_ascending (map fst s) = true ->
  upper_bound h s = S n ->
  nth_error s n = Some kv ->
  forall kv', In kv' s -> fst kv' <= h -> fst kv' <= fst kv.
Proof.
  revert n; induction s as [|[k x] s IH]; intros n Hasc H Hn kv' Hin Hle.
  - destruct Hin.
  - simpl in H. destruct (h <? k) eqn:Hlt; [discriminate|].
    injection H as H. simpl in Hasc.
    apply keys_ascending_cons in Hasc. destruct Hasc as [Hall Hasc].
    destruct n as [|n'].
    + simpl in Hn. injection Hn as <-.
      destruct Hin as [<-|Hin]; [simpl; lia|].
      pose proof (upper_bound_begin h s Hasc H kv' Hin). lia.
    + simpl in Hn.
      destruct Hin as [<-|Hin].
      * apply nth_error_In in Hn.
        specialize (Hall (fst kv) (in_map fst _ _ Hn)). simpl. lia.
      * now apply (IH n').
Qed.

Lemma keyed_by_handle_In s k svc :
  keyed_by_handle s = true -> In (k, svc) s -> k = handle svc.
Proof.
  unfold keyed_by_handle. rewrite forallb_forall.
  intros H Hin. specialize (H _ Hin). now apply Z.eqb_eq in H.
Qed.

(** Routing when some cataloged service starts at or before the handle: the
    candidate is the service with the greatest start handle at most
    [value_handle], the assertion holds, and the notification is delivered
    exactly if [value_handle] is at most the candidate's [range_end]. *)
Lemma OnNotification_routes dbg value_handle value m k0 svc0 rest :
  catalog_ok (services_ m) = true ->
  services_ m = (k0, svc0) :: rest ->
  k0 <= value_handle ->
  exists svc,
    In (handle svc, svc) (services_ m)
    /\ handle svc <= value_handle
    /\ (forall svc', In svc' (values (services_ m)) ->
          handle svc' <= value_handle -> handle svc' <= handle svc)
    /\ OnNotification dbg value_handle value m
       = Returned (if value_handle <=? range_end (info svc)
                   then emit (SvcHandleNotification svc value_handle value) m
                   else m).
Proof.
  intros Hok Hs Hle. unfold catalog_ok in Hok.
  apply andb_true_iff in Hok. destruct Hok as [Hasc Hkey].
  unfold OnNotification. 
  destruct (upper_bound value_handle (services_ m)) as [|n] eqn:Hub.
  - exfalso. rewrite Hs in Hub. simpl in Hub.
    destruct (value_handle <? k0) eqn:Hlt; [|discriminate].
    apply Z.ltb_lt in Hlt. lia.
  - destruct (upper_bound_pred _ _ _ Hub) as [[k svc] [Hn Hk]].
    pose proof (nth_error_In _ _ Hn) as Hin.
    pose proof (keyed_by_handle_In _ _ _ Hkey Hin) as Hks. simpl in Hk.
    exists svc. subst k. repeat split.
    + exact Hin.
    + exact Hk.
    + intros svc' Hin' Hle'. unfold values in Hin'.
      apply in_map_iff in Hin'. destruct Hin' as [[k' s'] [Heq Hin']].
      simpl in Heq; subst s'.
      pose proof (keyed_by_handle_In _ _ _ Hkey Hin') as Hk'. subst k'.
      apply (upper_bound_greatest value_handle (services_ m) n
               (handle svc, svc) Hasc Hub Hn (handle svc', svc') Hin' Hle').
    + rewrite Hs at 1. cbv [map_empty map_begin]. simpl Nat.eqb. simpl negb.
      cbv iota. simpl Nat.pred. unfold deref. rewrite Hn.
      apply Z.leb_le in Hk. rewrite Hk. simpl negb.
      rewrite andb_false_r.
      destruct (value_handle <=? range_end (info svc)); reflexivity.
Qed.

(** With ranges that do not overlap, a handle inside a cataloged service's
    range is delivered to that service. *)
Lemma OnNotification_in_range dbg value_handle value m svc :
  catalog_ok (services_ m) = true ->
  (forall s1 s2, In s1 (values (services_ m)) ->
     In s2 (values (services_ m)) ->
     handle s1 < handle s2 -> range_end (info s1) < handle s2) ->
  In (handle svc, svc) (services_ m) ->
  handle svc <= value_handle <= range_end (info svc) ->
  OnNotification dbg value_handle value m
  = Returned (emit (SvcHandleNotification svc value_handle value) m).
Proof.
  intros Hok Hdis Hin [Hlo Hhi].
  destruct (services_ m) as [|[k0 svc0] rest] eqn:Hs; [destruct Hin|].
  assert (Hk0 : k0 <= value_handle).
  { unfold catalog_ok in Hok. apply andb_true_iff in Hok.
    destruct Hok as [Hasc Hkey]. simpl in Hasc.
    apply keys_ascending_cons in Hasc. destruct Hasc as [Hall _].
    destruct Hin as [Heq|Hin]; [injection Heq as -> _; exact Hlo|].
    specialize (Hall _ (in_map fst _ _ Hin)). simpl in Hall. lia. }
  rewrite <- Hs in Hok, Hdis, Hin.
  destruct (OnNotification_routes dbg value_handle value m k0 svc0 rest
              Hok Hs Hk0) as [c [Hc [Hcle [Hmax Hres]]]].
  assert (Hsvc : In svc (values (services_ m))).
  { unfold values. apply in_map_iff. exists (handle svc, svc). now split. }
  assert (Hcv : In c (values (services_ m))).
  { unfold values. apply in_map_iff. exists (handle c, c). now split. }
  pose proof (Hmax svc Hsvc Hlo) as Hsc.
  assert (Heq : handle svc = handle c).
  { destruct (Z.eq_dec (handle svc) (handle c)) as [E|E]; [exact E|].
    assert (Hlt : handle svc < handle c) by lia.
    specialize (Hdis svc c Hsvc Hcv Hlt). lia. }
  assert (Hsame : c = svc).
  { apply catalog_ok_NoDup in Hok. destruct Hok as [Hnd _].
    clear - Hnd Hc Hin Heq. rewrite <- Heq in Hc.
    induction (services_ m) as [|[k x] s IH]; [destruct Hin|].
    simpl in Hnd. inversion Hnd as [|? ? Hnotin Hnd']; subst.
    destruct Hin as [E1|Hin], Hc as [E2|Hc].
    - congruence.
    - injection E1 as -> ->. exfalso. apply Hnotin.
      apply (in_map fst) in Hc. exact Hc.
    - injection E2 as -> ->. exfalso. apply Hnotin.
      apply (in_map fst) in Hin. exact Hin.
    - now apply IH. }
  subst c. rewrite Hres.
  apply Z.leb_le in Hhi. now rewrite Hhi.
Qed.

(** What the router does with a handle below every cataloged start handle:
    the candidate stays at [begin], the assertion is false, and without the
    assertion the notification goes to the first service whenever that
    service's range is well formed. *)
Lemma OnNotification_below_first value_handle value m k0 svc0 rest :
  services_ m = (k0, svc0) :: rest ->
  k0 = handle svc0 ->
  value_handle < k0 ->
  OnNotification true value_handle value m = DebugAssertFailed
  /\ (k0 <= range_end (info svc0) ->
      OnNotification false value_handle value m
      = Returned (emit (SvcHandleNotification svc0 value_handle value) m)).
Proof.
  intros Hs Hk Hlt. unfold OnNotification. rewrite Hs. simpl.
  assert (H1 : (value_handle <? k0) = true) by (apply Z.ltb_lt; lia).
  rewrite H1. simpl.
  assert (H2 : (handle svc0 <=? value_handle) = false)
    by (apply Z.leb_gt; lia).
  rewrite H2. simpl. split; [reflexivity|].
  intro Hwf.
  assert (H3 : (value_handle <=? range_end (info svc0)) = true)
    by (apply Z.leb_le; lia).
  now rewrite H3.
Qed.

Lemma OnNotification_empty dbg value_handle value m :
  services_ m = [] -> OnNotification dbg value_handle value m = Returned m.
Proof. intro H. unfold OnNotification. now rewrite H. Qed.

(** [OnNotification] changes nothing but the trace. *)
Lemma OnNotification_services dbg h v m m' :
  OnNotification dbg h v m = Returned m' -> services_ m' = services_ m.
Proof.
  unfold OnNotification.
  destruct (map_empty (services_ m)); [now intros [= <-]|].
  destruct (deref _ _) as [[k svc]|]; [|now intros [= <-]].
  destruct (dbg && _); [discriminate|].
  destruct (h <=? _); now intros [= <-].
Qed.

(** ** Continuations that fire after the manager is gone *)

Lemma exchange_mtu_cb_dead uuids status mtu m :
  weak_valid m = false -> exchange_mtu_cb uuids status mtu m = m.
Proof.
  intro H. unfold exchange_mtu_cb. rewrite H. simpl. now apply init_cb_dead.
Qed.

Lemma svc_cb_dead d a m : weak_valid m = false -> svc_cb d a m = m.
Proof. intro H. unfold svc_cb. now rewrite H. Qed.

Lemma primary_discov_cb_dead uuids status m :
  weak_valid m = false -> primary_discov_cb init_cb uuids status m = m.
Proof.
  intro H. unfold primary_discov_cb. rewrite H. simpl.
  rewrite status_cb_wrapper_dead by exact H. now apply init_cb_dead.
Qed.

Lemma secondary_discov_cb_dead status m :
  weak_valid m = false ->
  secondary_discov_cb (status_cb_wrapper init_cb) status m = m.
Proof.
  intro H. unfold secondary_discov_cb.
  rewrite status_cb_wrapper_dead by exact H. now apply init_cb_dead.
Qed.

(** ** The destructor *)

Lemma destroy_eq m :
  destroy m
  = mkManager [] [] (initialized_ m) (svc_watcher_ m) false false
      (trace m ++ [ClientSetNotificationHandler false]
       ++ map SvcShutDown (values (services_ m))
       ++ map (fun r => ServiceListCb (callback_ r) (HostErr kFailed) [])
            (pending_ m)).
Proof.
  unfold destroy. rewrite ClearServices_eq, complete_each_emits.
  unfold emits, set_services, set_pending, set_weak_valid,
    SetNotificationHandler, emit; simpl.
  rewrite map_resolved_failure by reflexivity.
  repeat rewrite <- app_assoc. reflexivity.
Qed.

(** ** Every operation keeps the catalog an ordered map *)

Lemma is_success_Success status : is_success status = true -> status = Success.
Proof. destruct status; simpl; congruence. Qed.

Lemma secondary_discov_cb_services status m :
  services_ (secondary_discov_cb (status_cb_wrapper init_cb) status m)
  = services_ m
  \/ services_ (secondary_discov_cb (status_cb_wrapper init_cb) status m) = [].
Proof.
  destruct (weak_valid m) eqn:H.
  - unfold secondary_discov_cb.
    set (st := if is_protocol_error status
                  && (protocol_error status =? kUnsupportedGroupType)
               then Success else status).
    destruct (is_success st) eqn:Hs.
    + apply is_success_Success in Hs. rewrite Hs.
      rewrite status_cb_wrapper_success by exact H. now left.
    + rewrite status_cb_wrapper_failure by assumption. now right.
  - rewrite secondary_discov_cb_dead by exact H. now left.
Qed.

Lemma primary_discov_cb_services uuids status m :
  services_ (primary_discov_cb init_cb uuids status m) = services_ m
  \/ services_ (primary_discov_cb init_cb uuids status m) = [].
Proof.
  destruct (weak_valid m) eqn:H.
  - destruct (is_success status) eqn:Hs.
    + left. unfold primary_discov_cb, DiscoverServicesOfKind.
      rewrite H, Hs. simpl. destruct (vec_empty uuids); reflexivity.
    + right. rewrite primary_discov_cb_failure by assumption.
      now rewrite status_cb_wrapper_failure by assumption.
  - rewrite primary_discov_cb_dead by exact H. now left.
Qed.

Lemma exchange_mtu_cb_services uuids status mtu m :
  services_ (exchange_mtu_cb uuids status mtu m) = services_ m.
Proof.
  destruct (weak_valid m) eqn:H.
  - destruct (is_success status) eqn:Hs.
    + unfold exchange_mtu_cb, bt_is_error, DiscoverServices,
        DiscoverServicesOfKind.
      rewrite H, Hs. simpl. destruct (vec_empty uuids); reflexivity.
    + now rewrite exchange_mtu_cb_failure by assumption.
  - now rewrite exchange_mtu_cb_dead by exact H.
Qed.

Lemma ListServices_services uuids cb m :
  services_ (ListServices uuids cb m) = services_ m.
Proof.
  unfold ListServices. destruct (initialized_ m); [|reflexivity].
  now rewrite Complete_resolved.
Qed.

Lemma step_catalog_ok m m' :
  step m m' ->
  catalog_ok (services_ m) = true -> catalog_ok (services_ m') = true.
Proof.
  intros Hstep Hok. destruct Hstep.
  - exact Hok.
  - exact Hok.
  - now rewrite exchange_mtu_cb_services.
  - unfold svc_cb. destruct (weak_valid m); [|exact Hok].
    now apply AddService_ok.
  - destruct (primary_discov_cb_services uuids st m) as [-> | ->];
      [exact Hok|reflexivity].
  - destruct (secondary_discov_cb_services st m) as [-> | ->];
      [exact Hok|reflexivity].
  - now apply AddService_ok.
  - rewrite ClearServices_eq. reflexivity.
  - now rewrite ListServices_services.
  - erewrite OnNotification_services by eassumption. exact Hok.
  - rewrite destroy_eq. reflexivity.
Qed.

Lemma reachable_catalog_ok m : reachable m -> catalog_ok (services_ m) = true.
Proof.
  induction 1 as [|m m' _ IH Hstep]; [reflexivity|].
  now apply (step_catalog_ok m m').
Qed.

(** ** Lookup after a report of services *)

Lemma AddService_find_other d a m h :
  h <> range_start d ->
  map_find h (services_ (AddService d a m)) = map_find h (services_ m).
Proof.
  intro Hne. unfold AddService.
  destruct (map_find (range_start d) (services_ m)); [reflexivity|].
  destruct a; [|reflexivity]. simpl.
  rewrite map_find_assign. apply Z.eqb_neq in Hne. now rewrite Hne.
Qed.

Lemma deliver_find ds h m :
  weak_valid m = true ->
  FindService h (deliver ds m)
  = match FindService h m with
    | Some svc => Some svc
    | None => first_reported h ds
    end.
Proof.
  unfold FindService, deliver, first_reported.
  revert m; induction ds as [|[d a] ds IH]; intros m Hlive; simpl.
  - destruct (map_find h (services_ m)); reflexivity.
  - unfold svc_cb at 2. rewrite Hlive. simpl.
    rewrite IH by now rewrite AddService_weak_valid.
    destruct (map_find h (services_ m)) as [svc|] eqn:Hf.
    + now rewrite (AddService_retains d a m h svc Hf).
    + destruct (range_start d =? h) eqn:Heq; simpl.
      * apply Z.eqb_eq in Heq; subst h.
        unfold AddService. rewrite Hf.
        destruct a; simpl.
        -- now rewrite map_find_assign, Z.eqb_refl.
        -- now rewrite Hf.
      * apply Z.eqb_neq in Heq.
        rewrite AddService_find_other by congruence.
        now rewrite Hf.
Qed.

Lemma deliver_svc_watcher ds m : svc_watcher_ (deliver ds m) = svc_watcher_ m.
Proof.
  unfold deliver. revert m; induction ds as [|d ds IH]; intro m; simpl.
  - reflexivity.
  - rewrite IH. unfold svc_cb, AddService.
    destruct (weak_valid m); [|reflexivity].
    destruct (map_find _ _); [reflexivity|].
    destruct (snd d); reflexivity.
Qed.

(** ** Whole initializations *)

(** A sequence whose secondary phase meets "unsupported group type" ends
    with the primary services cataloged. *)
Example run_Initialize_downgrade :
  run_Initialize [] Success 23
    (mkDiscoveryReply [(data_b, true); (data_a, true)] Success)
    (mkDiscoveryReply [] (ProtocolErr kUnsupportedGroupType))
    (ListServices [178] 1%nat
       (ListServices [] 0%nat (set_service_watcher construct)))
  = ex_discovered.
Proof. reflexivity. Qed.

(** Primary discovery that reports two services and then fails leaves an
    empty catalog, and [FindService] finds nothing before and after. *)
Example run_Initialize_rollback :
  let m := run_Initialize [] Success 23
             (mkDiscoveryReply [(data_a, true); (data_b, true)]
                (HostErr kLinkDisconnected))
             (mkDiscoveryReply [] Success)
             (ListServices [] 0%nat construct) in
  services_ m = []
  /\ FindService 10 construct = None
  /\ FindService 10 m = None
  /\ trace m
     = [ClientSetNotificationHandler true; ClientExchangeMTU;
        ClientDiscoverServices PRIMARY;
        SvcShutDown svc_a; SvcShutDown svc_b;
        SetInitialized; UserInitCb (HostErr kLinkDisconnected);
        ServiceListCb 0%nat (HostErr kLinkDisconnected) []].
Proof. repeat split. Qed.

(** A second service reported with start handle 10 is dropped. *)
Example deliver_duplicate_start_handle :
  services_ (deliver [(data_a, true); (mkServiceData 10 12 195, true)]
               construct)
  = [(10, svc_a)].
Proof. reflexivity. Qed.

(** * The claims *)

(** C1 (the code departs from the claim).  Services at [10,15] and [20,25]
    are cataloged and a notification arrives for handle 5, which precedes
    every cataloged service.  Without the debug assertion the router does not
    drop it: it delivers it to the service at [10,15], whose range does not
    contain 5. *)
Theorem OnNotification_below_catalog_delivered :
  values (services_ ex_discovered) = [svc_a; svc_b]
  /\ handle svc_a = 10 /\ range_end (info svc_a) = 15
  /\ OnNotification false 5 [] ex_discovered
     = Returned (emit (SvcHandleNotification svc_a 5 []) ex_discovered)
  /\ OnNotification false 12 [] ex_discovered
     = Returned (emit (SvcHandleNotification svc_a 12 []) ex_discovered)
  /\ OnNotification false 17 [] ex_discovered = Returned ex_discovered
  /\ OnNotification false 22 [] ex_discovered
     = Returned (emit (SvcHandleNotification svc_b 22 []) ex_discovered).
Proof. repeat split. Qed.

(** C10 (the code departs from the claim).  In the same catalog, with the
    debug assertion compiled in, a notification for handle 5 selects the
    service starting at 10 as candidate and the assertion
    [value_handle >= svc->handle()] fails. *)
Theorem OnNotification_below_catalog_assertion_fails :
  map fst (services_ ex_discovered) = [10; 20]
  /\ OnNotification true 5 [] ex_discovered = DebugAssertFailed.
Proof. split; reflexivity. Qed.

(** C2, as the specification states it, fails: at the completion of a
    successful sequence the trace does not grow by the flag write followed
    by the watcher calls, the completion and the pending queries. *)
Lemma completion_order_counterexample :
  trace (secondary_discov_cb (status_cb_wrapper init_cb) Success
           ex_awaiting_secondary)
  <> trace ex_awaiting_secondary
     ++ claimed_success_events ex_awaiting_secondary.
Proof. vm_compute. discriminate. Qed.

(** C2, amended.  When the secondary discovery reply completes the sequence
    successfully (with success, or with the downgraded "unsupported group
    type" error) on a live manager, then in this order: the registered
    watcher is called once per cataloged service in catalog order, the
    initialization flag is set, the caller's completion is called with
    success, and every pending query is resolved in queue order against the
    one final catalog; the queue ends empty and the catalog is unchanged. *)
Theorem completion_order (status : Status) (m : Manager)
  (Hlive : weak_valid m = true)
  (Hstatus : status = Success
             \/ status = ProtocolErr kUnsupportedGroupType) :
  trace (secondary_discov_cb (status_cb_wrapper init_cb) status m)
  = trace m
    ++ (if svc_watcher_ m then map SvcWatcher (values (services_ m)) else [])
    ++ [SetInitialized; UserInitCb Success]
    ++ map (fun r => ServiceListCb (callback_ r) Success
                       (matching_services (uuids_ r) (services_ m)))
         (pending_ m)
  /\ initialized_ (secondary_discov_cb (status_cb_wrapper init_cb) status m)
     = true
  /\ pending_ (secondary_discov_cb (status_cb_wrapper init_cb) status m) = []
  /\ services_ (secondary_discov_cb (status_cb_wrapper init_cb) status m)
     = services_ m.
Proof.
  assert (H : secondary_discov_cb (status_cb_wrapper init_cb) status m
              = status_cb_wrapper init_cb Success m).
  { destruct Hstatus as [-> | ->]; reflexivity. }
  rewrite H, status_cb_wrapper_success by exact Hlive.
  simpl. repeat split.
Qed.

Lemma completion_order_witness :
  weak_valid ex_awaiting_secondary = true
  /\ trace ex_discovered
     = trace ex_awaiting_secondary
       ++ [SvcWatcher svc_a; SvcWatcher svc_b; SetInitialized;
           UserInitCb Success;
           ServiceListCb 0%nat Success [svc_a; svc_b];
           ServiceListCb 1%nat Success [svc_b]].
Proof.
  split; [reflexivity|].
  exact (proj1 (completion_order (ProtocolErr kUnsupportedGroupType)
                  ex_awaiting_secondary eq_refl (or_intror eq_refl))).
Defined.

(** C3, as the specification states it, fails: when the MTU reply or the
    secondary discovery reply reaches a destroyed manager, the caller's
    completion is not called with the generic failure (nor at all). *)
Lemma destroyed_completion_counterexample :
  ~ In (UserInitCb (HostErr kFailed))
      (trace (exchange_mtu_cb [] Success 23 ex_destroyed))
  /\ ~ In (UserInitCb (HostErr kFailed))
         (trace (secondary_discov_cb (status_cb_wrapper init_cb) Success
                   ex_destroyed_late)).
Proof. split; vm_compute; intuition discriminate. Qed.

(** C3, amended.  A continuation of the discovery sequence that fires after
    the manager was destroyed leaves every field and the trace as they are:
    nothing of the manager is touched and no callback is called, the caller's
    completion included.  [status_cb_wrapper] does pass the generic failure
    on, but to [init_cb], which returns at once. *)
Theorem destroyed_continuations_do_nothing (m : Manager)
  (Hdead : weak_valid m = false) :
  forall uuids status mtu d a,
    exchange_mtu_cb uuids status mtu m = m
    /\ svc_cb d a m = m
    /\ primary_discov_cb init_cb uuids status m = m
    /\ secondary_discov_cb (status_cb_wrapper init_cb) status m = m
    /\ (forall status_cb,
          status_cb_wrapper status_cb status m
          = status_cb (HostErr kFailed) m)
    /\ init_cb (HostErr kFailed) m = m.
Proof.
  intros uuids status mtu d a. repeat split.
  - now apply exchange_mtu_cb_dead.
  - now apply svc_cb_dead.
  - now apply primary_discov_cb_dead.
  - now apply secondary_discov_cb_dead.
  - intro status_cb. now apply status_cb_wrapper_dead.
  - now apply init_cb_dead.
Qed.

Lemma destroyed_continuations_do_nothing_witness :
  weak_valid ex_destroyed = false
  /\ exchange_mtu_cb [] Success 23 ex_destroyed = ex_destroyed.
Proof.
  split; [reflexivity|].
  exact (proj1 (destroyed_continuations_do_nothing ex_destroyed eq_refl
                  [] Success 23 data_a true)).
Defined.




(** C5.  Primary discovery reports the services [ds] to a live manager and
    then fails with [status].  The catalog ends empty, the shutdown operation
    of every record cataloged so far was called, no secondary discovery
    request was issued, the caller's completion received [status], and every
    pending list request was resolved with [status] and an empty list. *)
Theorem primary_failure_rollback (ds : list (ServiceData * bool))
  (uuids : list UUID) (status : Status) (m : Manager)
  (Hlive : weak_valid m = true)
  (Hfail : is_success status = false) :
  services_ (primary_discov_cb init_cb uuids status (deliver ds m)) = []
  /\ pending_ (primary_discov_cb init_cb uuids status (deliver ds m)) = []
  /\ trace (primary_discov_cb init_cb uuids status (deliver ds m))
     = trace m
       ++ map SvcShutDown (values (services_ (deliver ds m)))
       ++ [SetInitialized; UserInitCb status]
       ++ map (fun r => ServiceListCb (callback_ r) status []) (pending_ m)
  /\ forall e,
       In e (trace (primary_discov_cb init_cb uuids status (deliver ds m))) ->
       In e (trace m) \/ is_secondary_request e = false.
Proof.
  assert (Hlive' : weak_valid (deliver ds m) = true)
    by now rewrite deliver_weak_valid.
  rewrite primary_discov_cb_failure, status_cb_wrapper_failure by assumption.
  unfold failure_events. simpl.
  rewrite deliver_trace, deliver_pending.
  repeat split.
  intros e Hin. apply in_app_or in Hin. destruct Hin as [Hin|Hin];
    [now left|right].
  apply in_app_or in Hin. destruct Hin as [Hin|Hin].
  - apply in_map_iff in Hin. destruct Hin as [svc [<- _]]. reflexivity.
  - destruct Hin as [<-|[<-|Hin]]; try reflexivity.
    apply in_map_iff in Hin. destruct Hin as [r [<- _]]. reflexivity.
Qed.

Lemma primary_failure_rollback_witness :
  weak_valid (ListServices [] 0%nat construct) = true
  /\ is_success (HostErr kLinkDisconnected) = false
  /\ trace (primary_discov_cb init_cb [] (HostErr kLinkDisconnected)
              (deliver [(data_a, true); (data_b, true)]
                 (ListServices [] 0%nat construct)))
     = [ClientSetNotificationHandler true;
        SvcShutDown svc_a; SvcShutDown svc_b;
        SetInitialized; UserInitCb (HostErr kLinkDisconnected);
        ServiceListCb 0%nat (HostErr kLinkDisconnected) []].
Proof.
  split; [reflexivity|]. split; [reflexivity|].
  exact (proj1 (proj2 (proj2
    (primary_failure_rollback [(data_a, true); (data_b, true)] []
       (HostErr kLinkDisconnected) (ListServices [] 0%nat construct)
       eq_refl eq_refl)))).
Defined.

(** C6, as the specification states it, fails: the peer reports one
    secondary service, [30,35], and then answers "unsupported group type".
    The caller's completion receives success, but the catalog is not the one
    primary discovery left: it holds the secondary service too. *)
Lemma secondary_reports_kept_counterexample :
  values (services_ ex_awaiting_secondary) = [svc_a; svc_b]
  /\ In (UserInitCb Success)
       (trace (secondary_discov_cb (status_cb_wrapper init_cb)
                 (ProtocolErr kUnsupportedGroupType) ex_secondary_reported))
  /\ values (services_ (secondary_discov_cb (status_cb_wrapper init_cb)
                          (ProtocolErr kUnsupportedGroupType)
                          ex_secondary_reported))
     <> values (services_ ex_awaiting_secondary).
Proof.
  split; [reflexivity|]. split.
  - vm_compute. intuition.
  - vm_compute. discriminate.
Qed.

(** C6, amended.  Primary discovery has succeeded and left the live manager
    [m]; in the secondary phase the peer reports the services [sec] and then
    a terminal status.
    If that status is the "unsupported group type" protocol error, it is
    taken as success: the caller's completion receives success, after the
    watcher calls and before the pending queries, and the catalog is what
    the two phases built.  Every primary-phase entry is kept as it was, and a
    start handle without a primary-phase entry holds the first secondary
    service reported for it whose record was allocated; with no secondary
    service reported the catalog is exactly the primary-phase one.
    Any other failing status clears the whole catalog, shutting down the
    records of both phases, and the completion receives that status. *)
Theorem secondary_unsupported_group_type (sec : list (ServiceData * bool))
  (m : Manager) (Hlive : weak_valid m = true) :
  (services_ (secondary_discov_cb (status_cb_wrapper init_cb)
                (ProtocolErr kUnsupportedGroupType) (deliver sec m))
   = services_ (deliver sec m)
   /\ (forall h,
         FindService h
           (secondary_discov_cb (status_cb_wrapper init_cb)
              (ProtocolErr kUnsupportedGroupType) (deliver sec m))
         = match FindService h m with
           | Some svc => Some svc
           | None => first_reported h sec
           end)
   /\ trace (secondary_discov_cb (status_cb_wrapper init_cb)
               (ProtocolErr kUnsupportedGroupType) (deliver sec m))
      = trace m
        ++ (if svc_watcher_ m
            then map SvcWatcher (values (services_ (deliver sec m)))
            else [])
        ++ [SetInitialized; UserInitCb Success]
        ++ map (fun r => ServiceListCb (callback_ r) Success
                           (matching_services (uuids_ r)
                              (services_ (deliver sec m))))
             (pending_ m))
  /\ services_ (secondary_discov_cb (status_cb_wrapper init_cb)
                  (ProtocolErr kUnsupportedGroupType) m)
     = services_ m
  /\ (forall status,
        is_success status = false ->
        status <> ProtocolErr kUnsupportedGroupType ->
        services_ (secondary_discov_cb (status_cb_wrapper init_cb) status
                     (deliver sec m)) = []
        /\ trace (secondary_discov_cb (status_cb_wrapper init_cb) status
                    (deliver sec m))
           = trace m
             ++ map SvcShutDown (values (services_ (deliver sec m)))
             ++ [SetInitialized; UserInitCb status]
             ++ map (fun r => ServiceListCb (callback_ r) status [])
                  (pending_ m)).
Proof.
  assert (Hlive' : weak_valid (deliver sec m) = true)
    by now rewrite deliver_weak_valid.
  split; [|split].
  - rewrite secondary_discov_cb_unsupported, status_cb_wrapper_success
      by exact Hlive'.
    simpl. split; [reflexivity|]. split.
    + intro h. now apply deliver_find.
    + unfold success_events.
      now rewrite deliver_trace, deliver_pending, deliver_svc_watcher.
  - rewrite secondary_discov_cb_unsupported, status_cb_wrapper_success
      by exact Hlive.
    reflexivity.
  - intros status Hfail Hother.
    rewrite secondary_discov_cb_other, status_cb_wrapper_failure
      by assumption.
    unfold failure_events. simpl.
    rewrite deliver_trace, deliver_pending. split; reflexivity.
Qed.

Lemma secondary_unsupported_group_type_witness :
  weak_valid ex_awaiting_secondary = true
  /\ services_ (secondary_discov_cb (status_cb_wrapper init_cb)
                  (ProtocolErr kUnsupportedGroupType) ex_secondary_reported)
     = [(10, svc_a); (20, svc_b); (30, svc_c)]
  /\ services_ ex_discovered = [(10, svc_a); (20, svc_b)].
Proof.
  split; [reflexivity|]. split.
  - exact (proj1 (proj1
      (secondary_unsupported_group_type [(data_c, true)]
         ex_awaiting_secondary eq_refl))).
  - exact (proj1 (proj2
      (secondary_unsupported_group_type [(data_c, true)]
         ex_awaiting_secondary eq_refl))).
Defined.

(** C7.  The destructor first replaces the client's notification handler by
    an empty one, then calls the shutdown operation of every cataloged
    record, in catalog order, then resolves every pending list request, in
    queue order and once each, with the generic failure and an empty list.
    Afterwards the catalog and the queue are empty, weak pointers are
    invalid, and a notification reaching the client is routed nowhere. *)
Theorem destroy_tears_down (m : Manager) :
  trace (destroy m)
  = trace m ++ [ClientSetNotificationHandler false]
    ++ map SvcShutDown (values (services_ m))
    ++ map (fun r => ServiceListCb (callback_ r) (HostErr kFailed) [])
         (pending_ m)
  /\ services_ (destroy m) = []
  /\ pending_ (destroy m) = []
  /\ notification_handler (destroy m) = false
  /\ weak_valid (destroy m) = false
  /\ forall dbg value_handle value,
       client_notification dbg value_handle value (destroy m)
       = Returned (destroy m).
Proof.
  rewrite destroy_eq. simpl. repeat split.
Qed.

(** C8.  In a catalog that is an ordered map, no two entries share a start
    handle; [AddService] for a start handle that is already a key returns
    the manager as it was (the entry is kept, nothing else changes, and the
    caller goes on); and every operation of the manager leaves the catalog
    an ordered map. *)
Theorem catalog_start_handles_unique (m : Manager)
  (Hok : catalog_ok (services_ m) = true) :
  NoDup (map fst (services_ m))
  /\ NoDup (map handle (values (services_ m)))
  /\ (forall d a,
        map_find (range_start d) (services_ m) <> None ->
        AddService d a m = m)
  /\ (forall d a svc,
        map_find (range_start d) (services_ m) = Some svc ->
        map_find (range_start d) (services_ (svc_cb d a m)) = Some svc
        /\ length (services_ (svc_cb d a m)) = length (services_ m))
  /\ (forall m', step m m' -> catalog_ok (services_ m') = true).
Proof.
  destruct (catalog_ok_NoDup _ Hok) as [Hk Hh].
  split; [exact Hk|]. split; [exact Hh|]. split; [|split].
  - intros d a. apply AddService_duplicate.
  - intros d a svc Hfind. unfold svc_cb.
    destruct (weak_valid m); [|now split].
    rewrite AddService_duplicate by congruence. now split.
  - intros m' Hstep. now apply (step_catalog_ok m m').
Qed.

Lemma catalog_start_handles_unique_witness :
  catalog_ok (services_ ex_awaiting_secondary) = true
  /\ AddService (mkServiceData 10 12 195) true ex_awaiting_secondary
     = ex_awaiting_secondary.
Proof.
  split; [reflexivity|].
  apply (proj1 (proj2 (proj2
    (catalog_start_handles_unique ex_awaiting_secondary eq_refl)))).
  discriminate.
Defined.

(** C9.  Resolving a list request with a success status hands the callback
    exactly the cataloged records whose UUID is in the request's filter set
    (all of them when the set is empty), in catalog order; and once the
    manager is initialized, [ListServices] calls the callback with that list
    before it returns. *)
Theorem ListServices_filtered (uuids : list UUID) (cb : CallbackId)
  (m : Manager) (Hinit : initialized_ m = true) :
  (forall r services m0,
      Complete r Success services m0
      = emit (ServiceListCb (callback_ r) Success
                (filter (in_filter (uuids_ r)) (values services))) m0)
  /\ (forall us svc, in_filter us svc = true <-> us = [] \/ In (uuid svc) us)
  /\ ListServices uuids cb m
     = emit (ServiceListCb cb Success
               (filter (in_filter uuids) (values (services_ m)))) m.
Proof.
  split; [|split].
  - intros r services m0. now rewrite Complete_resolved.
  - apply in_filter_spec.
  - now apply ListServices_initialized.
Qed.

Lemma ListServices_filtered_witness :
  initialized_ ex_discovered = true
  /\ ListServices [178] 5%nat ex_discovered
     = emit (ServiceListCb 5%nat Success [svc_b]) ex_discovered.
Proof.
  split; [reflexivity|].
  exact (proj2 (proj2
    (ListServices_filtered [178] 5%nat ex_discovered eq_refl))).
Defined.

(** * Further properties of the manager *)

(** ** Helper lemmas *)

Lemma exchange_mtu_cb_success uuids status mtu m :
  weak_valid m = true ->
  is_success status = true ->
  exchange_mtu_cb uuids status mtu m
  = emit (match uuids with
          | [] => ClientDiscoverServices PRIMARY
          | _ => ClientDiscoverServicesWithUuids PRIMARY uuids
          end) m.
Proof.
  intros H Hs.
  unfold exchange_mtu_cb, bt_is_error, DiscoverServices,
    DiscoverServicesOfKind.
  rewrite H, Hs. simpl. destruct uuids; reflexivity.
Qed.

Lemma primary_discov_cb_success uuids status m :
  weak_valid m = true ->
  is_success status = true ->
  primary_discov_cb init_cb uuids status m
  = emit (match uuids with
          | [] => ClientDiscoverServices SECONDARY
          | _ => ClientDiscoverServicesWithUuids SECONDARY uuids
          end) m.
Proof.
  intros H Hs. unfold primary_discov_cb, DiscoverServicesOfKind.
  rewrite H, Hs. simpl. destruct uuids; reflexivity.
Qed.

Lemma count_events_app p l1 l2 :
  count_events p (l1 ++ l2) = (count_events p l1 + count_events p l2)%nat.
Proof. unfold count_events. now rewrite filter_app, length_app. Qed.

Lemma count_events_map_none {A : Type} p (f : A -> Event) l :
  (forall x, p (f x) = false) -> count_events p (map f l) = 0%nat.
Proof.
  intro H. unfold count_events.
  induction l as [|x l IH]; simpl; [reflexivity|]. now rewrite H.
Qed.

Lemma OnNotification_footprint dbg h v m m' :
  OnNotification dbg h v m = Returned m' ->
  m' = m
  \/ exists k svc,
       In (k, svc) (services_ m)
       /\ h <= range_end (info svc)
       /\ m' = emit (SvcHandleNotification svc h v) m.
Proof.
  unfold OnNotification.
  destruct (map_empty (services_ m)); [intros [= <-]; now left|].
  destruct (deref _ _) as [[k svc]|] eqn:Hd; [|intros [= <-]; now left].
  destruct (dbg && _); [discriminate|].
  destruct (h <=? range_end (info svc)) eqn:Hle; intros [= <-];
    [right|now left].
  exists k, svc. repeat split.
  - unfold deref in Hd. now apply nth_error_In in Hd.
  - now apply Z.leb_le.
Qed.

(** What one operation does to the queue and the two flags: nothing; or it
    completes initialization; or it queues one request on a manager that is
    not initialized; or it is the destructor. *)
Lemma step_queue_flags m m' :
  step m m' ->
  (pending_ m' = pending_ m /\ initialized_ m' = initialized_ m
   /\ weak_valid m' = weak_valid m)
  \/ (weak_valid m = true /\ pending_ m' = [] /\ initialized_ m' = true
      /\ weak_valid m' = true)
  \/ (initialized_ m = false /\ initialized_ m' = false
      /\ weak_valid m' = weak_valid m
      /\ exists r, pending_ m' = pending_ m ++ [r])
  \/ (pending_ m' = [] /\ initialized_ m' = initialized_ m
      /\ weak_valid m' = false).
Proof.
  intro Hstep. destruct Hstep.
  - left. repeat split.
  - left. repeat split.
  - destruct (weak_valid m) eqn:H.
    + destruct (is_success st) eqn:Hs.
      * left. rewrite exchange_mtu_cb_success by assumption.
        simpl. repeat split. exact H.
      * right; left. rewrite exchange_mtu_cb_failure by assumption.
        simpl. repeat split.
    + left. rewrite exchange_mtu_cb_dead by exact H. repeat split. exact H.
  - left. unfold svc_cb, AddService. destruct (weak_valid m) eqn:H.
    + destruct (map_find _ _); [repeat split; exact H|].
      destruct a; simpl; repeat split; exact H.
    + repeat split. exact H.
  - destruct (weak_valid m) eqn:H.
    + destruct (is_success st) eqn:Hs.
      * left. rewrite primary_discov_cb_success by assumption.
        simpl. repeat split. exact H.
      * right; left.
        rewrite primary_discov_cb_failure, status_cb_wrapper_failure
          by assumption.
        simpl. repeat split.
    + left. rewrite primary_discov_cb_dead by exact H. repeat split. exact H.
  - destruct (weak_valid m) eqn:H.
    + right; left. unfold secondary_discov_cb.
      set (st' := if is_protocol_error st
                     && (protocol_error st =? kUnsupportedGroupType)
                  then Success else st).
      destruct (is_success st') eqn:Hs.
      * apply is_success_Success in Hs. rewrite Hs.
        rewrite status_cb_wrapper_success by exact H. simpl. repeat split.
      * rewrite status_cb_wrapper_failure by assumption.
        simpl. repeat split.
    + left. rewrite secondary_discov_cb_dead by exact H.
      repeat split. exact H.
  - left. unfold AddService.
    destruct (map_find _ _); [repeat split|].
    destruct a; simpl; repeat split.
  - left. rewrite ClearServices_eq. simpl. repeat split.
  - unfold ListServices. destruct (initialized_ m) eqn:Hi.
    + left. rewrite Complete_resolved. simpl. repeat split. exact Hi.
    + right; right; left. simpl. repeat split; [exact Hi|].
      now exists (mkServiceListRequest cb uuids).
  - left. apply OnNotification_footprint in H.
    destruct H as [->|[k [svc [_ [_ ->]]]]]; simpl; repeat split.
  - right; right; right. rewrite destroy_eq. simpl. repeat split.
Qed.

Lemma count_failure_events_watcher status m :
  count_events is_watcher_call (failure_events status m) = 0%nat.
Proof.
  unfold failure_events. rewrite count_events_app.
  now rewrite count_events_map_none.
Qed.

Lemma count_failure_events_user status m :
  count_events is_user_init_cb (failure_events status m) = 1%nat.
Proof.
  unfold failure_events. rewrite count_events_app.
  now rewrite count_events_map_none.
Qed.

Lemma count_failure_events_discovery status m :
  count_events is_discovery_request (failure_events status m) = 0%nat.
Proof.
  unfold failure_events. rewrite count_events_app.
  now rewrite count_events_map_none.
Qed.

Lemma issue_uninitialized rs m :
  initialized_ m = false -> issue rs m = set_pending (pending_ m ++ rs) m.
Proof.
  unfold issue. revert m; induction rs as [|r rs IH]; intros m H; simpl.
  - destruct m; unfold set_pending; simpl. now rewrite app_nil_r.
  - unfold ListServices at 2. rewrite H.
    rewrite IH by exact H. unfold set_pending; simpl.
    rewrite <- app_assoc. destruct r; reflexivity.
Qed.

Lemma issue_initialized rs m :
  initialized_ m = true ->
  issue rs m = emits (map (resolved Success (services_ m)) rs) m.
Proof.
  unfold issue. revert m; induction rs as [|r rs IH]; intros m H; simpl.
  - now rewrite emits_nil.
  - unfold ListServices at 2. rewrite H, Complete_resolved.
    rewrite IH by exact H. rewrite emit_emits, emits_emits.
    destruct r; reflexivity.
Qed.

(** ** The sequence of requests to the client *)

(** X1.  When the MTU exchange fails on a live manager, the caller's
    completion receives that status and the pending list requests are
    resolved with it; no discovery request is sent, no record is shut down
    and the catalog stays as it was. *)
Theorem mtu_failure_ends_sequence (uuids : list UUID) (status : Status)
  (mtu : Z) (m : Manager)
  (Hlive : weak_valid m = true)
  (Hfail : is_success status = false) :
  trace (exchange_mtu_cb uuids status mtu m)
  = trace m ++ [SetInitialized; UserInitCb status]
    ++ map (fun r => ServiceListCb (callback_ r) status []) (pending_ m)
  /\ services_ (exchange_mtu_cb uuids status mtu m) = services_ m
  /\ initialized_ (exchange_mtu_cb uuids status mtu m) = true
  /\ count_events is_discovery_request
       (trace (exchange_mtu_cb uuids status mtu m))
     = count_events is_discovery_request (trace m).
Proof.
  rewrite exchange_mtu_cb_failure by assumption. simpl.
  repeat split.
  rewrite count_events_app, count_failure_events_discovery. lia.
Qed.

Lemma mtu_failure_ends_sequence_witness :
  weak_valid (Initialize [] (ListServices [] 0%nat construct)) = true
  /\ is_success (HostErr kTimedOut) = false
  /\ trace ex_mtu_failed
     = [ClientSetNotificationHandler true; ClientExchangeMTU;
        SetInitialized; UserInitCb (HostErr kTimedOut);
        ServiceListCb 0%nat (HostErr kTimedOut) []].
Proof.
  split; [reflexivity|]. split; [reflexivity|].
  exact (proj1 (mtu_failure_ends_sequence [] (HostErr kTimedOut) 23
                  (Initialize [] (ListServices [] 0%nat construct))
                  eq_refl eq_refl)).
Defined.

Lemma filter_map_none {A : Type} (p : Event -> bool) (f : A -> Event) l :
  (forall x, p (f x) = false) -> filter p (map f l) = [].
Proof.
  intro H. induction l as [|x l IH]; simpl; [reflexivity|]. now rewrite H.
Qed.

Lemma failure_events_no_request status m :
  filter is_sequence_request (failure_events status m) = [].
Proof.
  unfold failure_events. rewrite filter_app. simpl.
  now rewrite filter_map_none.
Qed.

Lemma success_events_no_request m :
  filter is_sequence_request (success_events m) = [].
Proof.
  unfold success_events. rewrite !filter_app. simpl.
  rewrite (filter_map_none _ (resolved Success (services_ m)))
    by reflexivity.
  destruct (svc_watcher_ m); [|reflexivity].
  now rewrite filter_map_none.
Qed.

Lemma discovery_request_is_request kind uuids :
  is_sequence_request (discovery_request kind uuids) = true.
Proof. destruct uuids; reflexivity. Qed.

(** X2.  [Initialize] captures its UUID filter in the continuation it hands
    to [ExchangeMTU], and a whole initialization on a manager that stays
    alive sends the client, in this order and nothing more: the MTU exchange;
    if that succeeded, one primary discovery request with the filter given
    to [Initialize]; and if primary discovery succeeded too, one secondary
    discovery request with the same filter.  Whatever services the client
    reports and however the sequence ends, no further request is sent. *)
Theorem Initialize_request_sequence (uuids : list UUID)
  (mtu_status : Status) (mtu : Z) (primary secondary : DiscoveryReply)
  (m : Manager) (Hlive : weak_valid m = true) :
  filter is_sequence_request
    (trace (run_Initialize uuids mtu_status mtu primary secondary m))
  = filter is_sequence_request (trace m)
    ++ ClientExchangeMTU
       :: (if is_success mtu_status
           then discovery_request PRIMARY uuids
                :: (if is_success (result primary)
                    then [discovery_request SECONDARY uuids]
                    else [])
           else []).
Proof.
  unfold run_Initialize, Initialize.
  destruct (is_success mtu_status) eqn:Hm.
  - rewrite exchange_mtu_cb_success by (assumption || reflexivity).
    change (weak_valid (emit _ (emit ClientExchangeMTU m)))
      with (weak_valid m).
    rewrite Hlive. cbv [andb].
    fold (discovery_request PRIMARY uuids).
    set (m2 := deliver (found primary) _).
    assert (H2 : weak_valid m2 = true)
      by (unfold m2; now rewrite deliver_weak_valid).
    assert (T2 : filter is_sequence_request (trace m2)
                 = filter is_sequence_request (trace m)
                   ++ [ClientExchangeMTU; discovery_request PRIMARY uuids]).
    { unfold m2. rewrite deliver_trace. simpl. rewrite !filter_app. simpl.
      rewrite discovery_request_is_request. now rewrite <- app_assoc. }
    destruct (is_success (result primary)) eqn:Hp.
    + rewrite primary_discov_cb_success by assumption.
      change (weak_valid (emit _ m2)) with (weak_valid m2).
      rewrite H2. cbv [andb].
      fold (discovery_request SECONDARY uuids).
      set (m4 := deliver (found secondary) _).
      assert (H4 : weak_valid m4 = true)
        by (unfold m4; now rewrite deliver_weak_valid).
      assert (T4 : filter is_sequence_request (trace m4)
                   = filter is_sequence_request (trace m)
                     ++ [ClientExchangeMTU; discovery_request PRIMARY uuids;
                         discovery_request SECONDARY uuids]).
      { unfold m4. rewrite deliver_trace. simpl. rewrite filter_app, T2.
        simpl. rewrite discovery_request_is_request.
        now rewrite <- app_assoc. }
      unfold secondary_discov_cb.
      set (st := if is_protocol_error (result secondary)
                    && (protocol_error (result secondary)
                        =? kUnsupportedGroupType)
                 then Success else result secondary).
      destruct (is_success st) eqn:Hs.
      * apply is_success_Success in Hs. rewrite Hs.
        rewrite status_cb_wrapper_success by exact H4. simpl.
        rewrite filter_app, success_events_no_request, T4.
        now rewrite app_nil_r.
      * rewrite status_cb_wrapper_failure by assumption. simpl.
        rewrite !filter_app, failure_events_no_request, T4.
        rewrite filter_map_none by reflexivity.
        now rewrite !app_nil_r.
    + rewrite primary_discov_cb_failure, status_cb_wrapper_failure
        by assumption.
      simpl.
      rewrite !filter_app, failure_events_no_request, T2.
      rewrite filter_map_none by reflexivity.
      now rewrite !app_nil_r.
  - rewrite exchange_mtu_cb_failure by (assumption || reflexivity).
    rewrite andb_false_r. simpl.
    rewrite !filter_app, failure_events_no_request. simpl.
    now rewrite app_nil_r.
Qed.

Lemma Initialize_request_sequence_witness :
  weak_valid construct = true
  /\ filter is_sequence_request
       (trace (run_Initialize [161; 178] Success 23
                 (mkDiscoveryReply [(data_a, true); (data_b, true)] Success)
                 (mkDiscoveryReply [(data_c, true)]
                    (HostErr kLinkDisconnected)) construct))
     = [ClientExchangeMTU;
        ClientDiscoverServicesWithUuids PRIMARY [161; 178];
        ClientDiscoverServicesWithUuids SECONDARY [161; 178]].
Proof.
  split; [reflexivity|].
  exact (Initialize_request_sequence [161; 178] Success 23
           (mkDiscoveryReply [(data_a, true); (data_b, true)] Success)
           (mkDiscoveryReply [(data_c, true)] (HostErr kLinkDisconnected))
           construct eq_refl).
Defined.

(** X3.  When a sequence aborts with a failure status on a live manager, the
    discovery watcher is not called, even if one is registered and services
    were cataloged, and the caller's completion is called exactly once. *)
Theorem aborted_sequence_skips_watcher (status : Status) (m m' : Manager)
  (Hlive : weak_valid m = true)
  (Hfail : is_success status = false)
  (Habort : aborts status m m') :
  count_events is_watcher_call (trace m')
  = count_events is_watcher_call (trace m)
  /\ count_events is_user_init_cb (trace m')
     = S (count_events is_user_init_cb (trace m)).
Proof.
  assert (Hshut : forall p l,
            (forall svc, p (SvcShutDown svc) = false) ->
            count_events p (map SvcShutDown l) = 0%nat)
    by (intros p l Hp; now apply count_events_map_none).
  destruct Habort as [uuids mtu m | uuids m | m Hother].
  - rewrite exchange_mtu_cb_failure by assumption. simpl.
    rewrite !count_events_app, count_failure_events_watcher,
      count_failure_events_user. lia.
  - rewrite primary_discov_cb_failure, status_cb_wrapper_failure
      by assumption.
    simpl.
    rewrite !count_events_app, count_failure_events_watcher,
      count_failure_events_user, !Hshut by reflexivity. lia.
  - rewrite secondary_discov_cb_other, status_cb_wrapper_failure
      by assumption.
    simpl.
    rewrite !count_events_app, count_failure_events_watcher,
      count_failure_events_user, !Hshut by reflexivity. lia.
Qed.

Lemma aborted_sequence_skips_watcher_witness :
  weak_valid ex_awaiting_secondary = true
  /\ is_success (HostErr kLinkDisconnected) = false
  /\ count_events is_watcher_call
       (trace (secondary_discov_cb (status_cb_wrapper init_cb)
                 (HostErr kLinkDisconnected) ex_awaiting_secondary))
     = 0%nat.
Proof.
  split; [reflexivity|]. split; [reflexivity|].
  exact (proj1 (aborted_sequence_skips_watcher (HostErr kLinkDisconnected)
                  ex_awaiting_secondary _ eq_refl eq_refl
                  (aborts_secondary (HostErr kLinkDisconnected)
                     ex_awaiting_secondary
                     (fun H => eq_ind (HostErr kLinkDisconnected)
                                 (fun s => match s with
                                           | HostErr _ => True
                                           | _ => False
                                           end) I _ H)))).
Defined.

(** ** List requests *)

(** X4.  On a manager that is not initialized, list requests are queued
    behind the ones already waiting, in call order, and no callback is
    called; nothing else changes. *)
Theorem uninitialized_requests_are_queued (rs : list ServiceListRequest)
  (m : Manager) (Huninit : initialized_ m = false) :
  pending_ (issue rs m) = pending_ m ++ rs
  /\ trace (issue rs m) = trace m
  /\ services_ (issue rs m) = services_ m
  /\ initialized_ (issue rs m) = false.
Proof.
  rewrite issue_uninitialized by exact Huninit. simpl.
  repeat split. exact Huninit.
Qed.

Lemma uninitialized_requests_are_queued_witness :
  initialized_ construct = false
  /\ pending_ (issue [mkServiceListRequest 0%nat [];
                      mkServiceListRequest 1%nat [178]] construct)
     = [mkServiceListRequest 0%nat []; mkServiceListRequest 1%nat [178]].
Proof.
  split; [reflexivity|].
  exact (proj1 (uninitialized_requests_are_queued
                  [mkServiceListRequest 0%nat [];
                   mkServiceListRequest 1%nat [178]] construct eq_refl)).
Defined.

(** X5.  List requests issued before initialization completed are served in
    call order, after the ones that were already waiting: by a successful
    completion with the filtered final catalog, by the destructor with the
    generic failure and an empty list. *)
Theorem queued_requests_served_in_call_order (rs : list ServiceListRequest)
  (m : Manager)
  (Hlive : weak_valid m = true)
  (Huninit : initialized_ m = false) :
  trace (secondary_discov_cb (status_cb_wrapper init_cb) Success (issue rs m))
  = trace m
    ++ (if svc_watcher_ m then map SvcWatcher (values (services_ m)) else [])
    ++ [SetInitialized; UserInitCb Success]
    ++ map (fun r => ServiceListCb (callback_ r) Success
                       (matching_services (uuids_ r) (services_ m)))
         (pending_ m ++ rs)
  /\ trace (destroy (issue rs m))
     = trace m ++ [ClientSetNotificationHandler false]
       ++ map SvcShutDown (values (services_ m))
       ++ map (fun r => ServiceListCb (callback_ r) (HostErr kFailed) [])
            (pending_ m ++ rs).
Proof.
  rewrite issue_uninitialized by exact Huninit. split.
  - rewrite secondary_discov_cb_other by discriminate.
    rewrite status_cb_wrapper_success by exact Hlive. reflexivity.
  - rewrite destroy_eq. reflexivity.
Qed.

Lemma queued_requests_served_in_call_order_witness :
  weak_valid construct = true
  /\ initialized_ construct = false
  /\ trace (destroy (issue [mkServiceListRequest 0%nat [];
                            mkServiceListRequest 1%nat [178]] construct))
     = [ClientSetNotificationHandler true;
        ClientSetNotificationHandler false;
        ServiceListCb 0%nat (HostErr kFailed) [];
        ServiceListCb 1%nat (HostErr kFailed) []].
Proof.
  split; [reflexivity|]. split; [reflexivity|].
  exact (proj2 (queued_requests_served_in_call_order
                  [mkServiceListRequest 0%nat [];
                   mkServiceListRequest 1%nat [178]] construct
                  eq_refl eq_refl)).
Defined.

(** X6.  On an initialized manager every list request is answered before
    [ListServices] returns, with a success status and the filtered catalog,
    also when initialization had failed; the queue is not touched. *)
Theorem initialized_requests_are_answered (rs : list ServiceListRequest)
  (m : Manager) (Hinit : initialized_ m = true) :
  trace (issue rs m)
  = trace m
    ++ map (fun r => ServiceListCb (callback_ r) Success
                       (matching_services (uuids_ r) (services_ m))) rs
  /\ pending_ (issue rs m) = pending_ m
  /\ services_ (issue rs m) = services_ m.
Proof.
  rewrite issue_initialized by exact Hinit. simpl. repeat split.
Qed.

Lemma initialized_requests_are_answered_witness :
  initialized_ ex_discovered = true
  /\ trace (issue [mkServiceListRequest 8%nat [178];
                   mkServiceListRequest 9%nat [200]] ex_discovered)
     = trace ex_discovered
       ++ [ServiceListCb 8%nat Success [svc_b];
           ServiceListCb 9%nat Success []].
Proof.
  split; [reflexivity|].
  exact (proj1 (initialized_requests_are_answered
                  [mkServiceListRequest 8%nat [178];
                   mkServiceListRequest 9%nat [200]] ex_discovered eq_refl)).
Defined.

(** ** The flags and the queue over every operation *)

(** X7.  No operation resets [initialized_] once it is true, and none makes
    a weak pointer valid again once the manager was destroyed. *)
Theorem flags_are_monotone (m m' : Manager) (Hstep : step m m') :
  (initialized_ m = true -> initialized_ m' = true)
  /\ (weak_valid m = false -> weak_valid m' = false).
Proof.
  destruct (step_queue_flags m m' Hstep)
    as [[_ [Hi Hw]] | [[Hl [_ [Hi Hw]]] | [[Hi0 [Hi [Hw _]]] | [_ [Hi Hw]]]]].
  - rewrite Hi, Hw. now split.
  - split; [intros _; exact Hi|]. intro H. congruence.
  - split; [congruence|]. intro H. now rewrite Hw.
  - rewrite Hi. split; [trivial|]. intros _. exact Hw.
Qed.

Lemma flags_are_monotone_witness :
  step ex_discovered (destroy ex_discovered)
  /\ initialized_ (destroy ex_discovered) = true.
Proof.
  split; [apply step_destroy|].
  exact (proj1 (flags_are_monotone ex_discovered (destroy ex_discovered)
                  (step_destroy ex_discovered)) eq_refl).
Defined.

(** X8.  In every state reached from the constructor, an initialized manager
    has an empty queue: no list request stays unanswered once initialization
    completed. *)
Theorem initialized_manager_has_empty_queue (m : Manager)
  (Hreach : reachable m) (Hinit : initialized_ m = true) :
  pending_ m = [].
Proof.
  induction Hreach as [|m m' Hreach IH Hstep]; [discriminate|].
  destruct (step_queue_flags m m' Hstep)
    as [[Hp [Hi _]] | [[_ [Hp _]] | [[_ [Hi _]] | [Hp _]]]].
  - rewrite Hp. apply IH. congruence.
  - exact Hp.
  - congruence.
  - exact Hp.
Qed.

Lemma initialized_manager_has_empty_queue_witness :
  reachable ex_mtu_failed
  /\ initialized_ ex_mtu_failed = true
  /\ pending_ ex_mtu_failed = [].
Proof.
  assert (H : reachable ex_mtu_failed).
  { unfold ex_mtu_failed.
    eapply reachable_step; [|apply step_exchange_mtu_cb].
    eapply reachable_step; [|apply step_Initialize].
    eapply reachable_step; [|apply step_ListServices].
    apply reachable_construct. }
  split; [exact H|]. split; [reflexivity|].
  exact (initialized_manager_has_empty_queue ex_mtu_failed H eq_refl).
Defined.

(** ** The catalog: [AddService], [FindService], [ClearServices] *)

Lemma map_assign_length_absent h v s :
  map_find h s = None -> length (map_assign h v s) = S (length s).
Proof.
  induction s as [|[k x] s IH]; simpl; intro H; [reflexivity|].
  destruct (h =? k) eqn:Heq; [discriminate|].
  destruct (h <? k); simpl; [reflexivity|]. now rewrite IH.
Qed.

Lemma map_find_In h v s : map_find h s = Some v -> In (h, v) s.
Proof.
  induction s as [|[k x] s IH]; simpl; intro H; [discriminate|].
  destruct (h =? k) eqn:Heq.
  - apply Z.eqb_eq in Heq. injection H as ->. left. now subst.
  - right. now apply IH.
Qed.

Lemma map_find_None h s : map_find h s = None <-> ~ In h (map fst s).
Proof.
  induction s as [|[k x] s IH]; simpl.
  - split; [intros _ []|reflexivity].
  - destruct (h =? k) eqn:Heq.
    + apply Z.eqb_eq in Heq. split; [discriminate|].
      intro H. exfalso. apply H. left. now symmetry.
    + apply Z.eqb_neq in Heq. rewrite IH. split.
      * intros H [E|Hin]; [now apply Heq|now apply H].
      * intros H Hin. apply H. now right.
Qed.

Lemma In_map_find h v s :
  NoDup (map fst s) -> In (h, v) s -> map_find h s = Some v.
Proof.
  induction s as [|[k x] s IH]; simpl; intros Hnd Hin; [destruct Hin|].
  inversion Hnd as [|? ? Hnotin Hnd']; subst.
  destruct Hin as [E|Hin].
  - injection E as -> ->. now rewrite Z.eqb_refl.
  - destruct (h =? k) eqn:Heq.
    + apply Z.eqb_eq in Heq; subst k. exfalso. apply Hnotin.
      apply (in_map fst) in Hin. exact Hin.
    + now apply IH.
Qed.

(** X9.  [AddService] followed by [FindService]: for a start handle that is
    not cataloged yet and an allocation that goes well, the new record is
    found under its start handle, every other handle is answered as before
    and the catalog has one entry more; when the allocation fails the
    manager is left as it was. *)
Theorem AddService_then_FindService (d : ServiceData) (m : Manager)
  (Hnew : FindService (range_start d) m = None) :
  FindService (range_start d) (AddService d true m)
  = Some (mkRemoteService d)
  /\ (forall h, h <> range_start d ->
        FindService h (AddService d true m) = FindService h m)
  /\ length (services_ (AddService d true m)) = S (length (services_ m))
  /\ AddService d false m = m.
Proof.
  unfold FindService in *. unfold AddService. rewrite Hnew. simpl.
  split; [|split; [|split]].
  - now rewrite map_find_assign, Z.eqb_refl.
  - intros h Hne. rewrite map_find_assign.
    apply Z.eqb_neq in Hne. now rewrite Hne.
  - now apply map_assign_length_absent.
  - reflexivity.
Qed.

Lemma AddService_then_FindService_witness :
  FindService 30 ex_discovered = None
  /\ FindService 30 (AddService (mkServiceData 30 35 195) true ex_discovered)
     = Some (mkRemoteService (mkServiceData 30 35 195)).
Proof.
  split; [reflexivity|].
  exact (proj1 (AddService_then_FindService (mkServiceData 30 35 195)
                  ex_discovered eq_refl)).
Defined.

(** X10.  After the client reported the services [ds] to a live manager,
    [FindService] answers a start handle with the record that was cataloged
    before, if there was one, and otherwise with the first reported service
    of that start handle whose record could be allocated: later reports of
    the same start handle never replace an entry. *)
Theorem FindService_after_discovery (ds : list (ServiceData * bool))
  (h : Handle) (m : Manager) (Hlive : weak_valid m = true) :
  FindService h (deliver ds m)
  = match FindService h m with
    | Some svc => Some svc
    | None => first_reported h ds
    end.
Proof. now apply deliver_find. Qed.

Lemma FindService_after_discovery_witness :
  weak_valid construct = true
  /\ FindService 10
       (deliver [(mkServiceData 10 12 195, false); (data_a, true);
                 (mkServiceData 10 11 200, true)] construct)
     = Some svc_a.
Proof.
  split; [reflexivity|].
  exact (FindService_after_discovery
           [(mkServiceData 10 12 195, false); (data_a, true);
            (mkServiceData 10 11 200, true)] 10 construct eq_refl).
Defined.

(** X11.  [FindService] looks a start handle up exactly: in an ordered
    catalog it finds a record precisely when that record is cataloged under
    the handle, the record found then starts at the handle, and nothing is
    found for a handle no cataloged service starts at, also when that handle
    lies inside a cataloged range. *)
Theorem FindService_exact_start_handle (h : Handle) (m : Manager)
  (Hok : catalog_ok (services_ m) = true) :
  (forall svc, FindService h m = Some svc <-> In (h, svc) (services_ m))
  /\ (forall svc, FindService h m = Some svc -> handle svc = h)
  /\ (FindService h m = None <->
      forall svc, In svc (values (services_ m)) -> handle svc <> h).
Proof.
  destruct (catalog_ok_NoDup _ Hok) as [Hnd _].
  unfold catalog_ok in Hok. apply andb_true_iff in Hok.
  destruct Hok as [_ Hkey]. unfold FindService.
  split; [|split].
  - intro svc. split; [apply map_find_In|now apply In_map_find].
  - intros svc Hf. apply map_find_In in Hf.
    symmetry. now apply (keyed_by_handle_In (services_ m)).
  - rewrite map_find_None. split.
    + intros Hnot svc Hin Heq. apply Hnot.
      unfold values in Hin. apply in_map_iff in Hin.
      destruct Hin as [[k s] [E Hin]]. simpl in E; subst s.
      pose proof (keyed_by_handle_In _ _ _ Hkey Hin) as Hk.
      apply in_map_iff. exists (k, svc). split; [simpl; congruence|exact Hin].
    + intros Hall Hin. apply in_map_iff in Hin.
      destruct Hin as [[k s] [E Hin]]. simpl in E; subst k.
      pose proof (keyed_by_handle_In _ _ _ Hkey Hin) as Hk.
      apply (Hall s).
      * unfold values. apply in_map_iff. exists (h, s). now split.
      * now symmetry.
Qed.

Lemma FindService_exact_start_handle_witness :
  catalog_ok (services_ ex_discovered) = true
  /\ FindService 12 ex_discovered = None.
Proof.
  split; [reflexivity|].
  apply (proj2 (proj2 (FindService_exact_start_handle 12 ex_discovered
                         eq_refl))).
  intros svc Hin. vm_compute in Hin.
  destruct Hin as [<-|[<-|[]]]; discriminate.
Defined.

(** X12.  [ClearServices] calls the shutdown operation of every cataloged
    record once, in catalog order, and leaves an empty catalog in which
    [FindService] finds nothing; the queue and the flags are not touched,
    and a second call does nothing at all. *)
Theorem ClearServices_shuts_down_all (m : Manager) :
  trace (ClearServices m)
  = trace m ++ map SvcShutDown (values (services_ m))
  /\ services_ (ClearServices m) = []
  /\ (forall h, FindService h (ClearServices m) = None)
  /\ pending_ (ClearServices m) = pending_ m
  /\ initialized_ (ClearServices m) = initialized_ m
  /\ ClearServices (ClearServices m) = ClearServices m.
Proof.
  rewrite !ClearServices_eq. simpl. repeat split.
  unfold emits, set_services; simpl. now rewrite app_nil_r.
Qed.

(** ** Results of list requests *)

Lemma keyed_values_keys s :
  keyed_by_handle s = true -> map handle (values s) = map fst s.
Proof.
  intro Hk. unfold values. rewrite map_map. apply map_ext_in.
  intros [k svc] Hin. simpl. symmetry.
  now apply (keyed_by_handle_In s).
Qed.

Lemma keys_ascending_filter (p : RemoteService -> bool) l :
  keys_ascending (map handle l) = true ->
  keys_ascending (map handle (filter p l)) = true.
Proof.
  induction l as [|x l IH]; intro H; [reflexivity|].
  simpl in H. apply keys_ascending_cons in H. destruct H as [Hall Hasc].
  simpl. destruct (p x); [|now apply IH].
  simpl. apply keys_ascending_cons. split; [|now apply IH].
  intros k Hin. apply Hall.
  apply in_map_iff in Hin. destruct Hin as [y [<- Hy]].
  apply filter_In in Hy. destruct Hy as [Hy _]. now apply in_map.
Qed.

(** X13.  The list an initialized manager with an ordered catalog hands to a
    [ListServices] callback is in strictly ascending start-handle order,
    hence free of duplicates, whatever the order of discovery was, and each
    of its records is the one [FindService] finds under its start handle. *)
Theorem ListServices_result_ascending (uuids : list UUID) (cb : CallbackId)
  (m : Manager)
  (Hinit : initialized_ m = true)
  (Hok : catalog_ok (services_ m) = true) :
  exists result,
    ListServices uuids cb m = emit (ServiceListCb cb Success result) m
    /\ keys_ascending (map handle result) = true
    /\ NoDup result
    /\ forall svc, In svc result -> FindService (handle svc) m = Some svc.
Proof.
  exists (matching_services uuids (services_ m)).
  destruct (catalog_ok_NoDup _ Hok) as [Hnd _].
  unfold catalog_ok in Hok. apply andb_true_iff in Hok.
  destruct Hok as [Hasc Hkey].
  assert (Hres : keys_ascending
                   (map handle (matching_services uuids (services_ m)))
                 = true).
  { unfold matching_services. apply keys_ascending_filter.
    now rewrite keyed_values_keys. }
  split; [now apply ListServices_initialized|].
  split; [exact Hres|]. split.
  - apply keys_ascending_NoDup in Hres.
    now apply NoDup_map_inv in Hres.
  - intros svc Hin. unfold matching_services in Hin.
    apply filter_In in Hin. destruct Hin as [Hin _].
    unfold values in Hin. apply in_map_iff in Hin.
    destruct Hin as [[k s] [E Hin]]. simpl in E; subst s.
    pose proof (keyed_by_handle_In _ _ _ Hkey Hin) as Hk. subst k.
    unfold FindService. now apply In_map_find.
Qed.

Lemma ListServices_result_ascending_witness :
  initialized_ ex_discovered = true
  /\ catalog_ok (services_ ex_discovered) = true
  /\ exists result,
       ListServices [] 4%nat ex_discovered
       = emit (ServiceListCb 4%nat Success result) ex_discovered
       /\ keys_ascending (map handle result) = true.
Proof.
  split; [reflexivity|]. split; [reflexivity|].
  destruct (ListServices_result_ascending [] 4%nat ex_discovered
              eq_refl eq_refl) as [result [H1 [H2 _]]].
  exists result. now split.
Defined.

(** ** Routing of notifications *)

(** X14.  When some cataloged service starts at or before the handle of a
    notification, the router picks the cataloged service with the greatest
    start handle not above that handle, the debug assertion holds, and the
    notification is delivered to that service exactly if the handle is not
    above the service's [range_end]; otherwise it is dropped. *)
Theorem notification_candidate_is_greatest_start (dbg : bool)
  (value_handle : Handle) (value : ByteBuffer) (m : Manager)
  (k0 : Handle) (svc0 : RemoteService) (rest : ServiceMap)
  (Hok : catalog_ok (services_ m) = true)
  (Hfirst : services_ m = (k0, svc0) :: rest)
  (Hle : k0 <= value_handle) :
  exists svc,
    In (handle svc, svc) (services_ m)
    /\ handle svc <= value_handle
    /\ (forall svc', In svc' (values (services_ m)) ->
          handle svc' <= value_handle -> handle svc' <= handle svc)
    /\ OnNotification dbg value_handle value m
       = Returned (if value_handle <=? range_end (info svc)
                   then emit (SvcHandleNotification svc value_handle value) m
                   else m).
Proof. now apply (OnNotification_routes dbg value_handle value m k0 svc0 rest). Qed.

Lemma notification_candidate_is_greatest_start_witness :
  catalog_ok (services_ ex_discovered) = true
  /\ services_ ex_discovered = (10, svc_a) :: [(20, svc_b)]
  /\ 10 <= 17
  /\ exists svc,
       In (handle svc, svc) (services_ ex_discovered) /\ handle svc <= 17.
Proof.
  split; [reflexivity|]. split; [reflexivity|]. split; [lia|].
  destruct (notification_candidate_is_greatest_start true 17 []
              ex_discovered 10 svc_a [(20, svc_b)] eq_refl eq_refl
              ltac:(lia)) as [svc [H1 [H2 _]]].
  exists svc. now split.
Defined.

(** X15.  With cataloged ranges that do not overlap, a notification whose
    handle lies inside the range of a cataloged service is delivered to that
    service, and to no other, in either build. *)
Theorem notification_in_range_is_delivered (dbg : bool)
  (value_handle : Handle) (value : ByteBuffer) (m : Manager)
  (svc : RemoteService)
  (Hok : catalog_ok (services_ m) = true)
  (Hdisjoint : forall s1 s2,
     In s1 (values (services_ m)) -> In s2 (values (services_ m)) ->
     handle s1 < handle s2 -> range_end (info s1) < handle s2)
  (Hin : In (handle svc, svc) (services_ m))
  (Hrange : handle svc <= value_handle <= range_end (info svc)) :
  OnNotification dbg value_handle value m
  = Returned (emit (SvcHandleNotification svc value_handle value) m).
Proof. now apply OnNotification_in_range. Qed.

Lemma notification_in_range_is_delivered_witness :
  catalog_ok (services_ ex_discovered) = true
  /\ In (handle svc_b, svc_b) (services_ ex_discovered)
  /\ handle svc_b <= 22 <= range_end (info svc_b)
  /\ OnNotification true 22 [] ex_discovered
     = Returned (emit (SvcHandleNotification svc_b 22 []) ex_discovered).
Proof.
  split; [reflexivity|].
  split; [right; left; reflexivity|].
  split; [vm_compute; split; discriminate|].
  apply notification_in_range_is_delivered.
  - reflexivity.
  - intros s1 s2 H1 H2. vm_compute in H1, H2.
    destruct H1 as [<-|[<-|[]]]; destruct H2 as [<-|[<-|[]]];
      vm_compute; intro H; try reflexivity; discriminate H.
  - right; left; reflexivity.
  - vm_compute; split; discriminate.
Defined.

(** X16.  A notification never changes the catalog, the queue or the flags,
    and it reaches at most one service: the trace either stays as it is or
    grows by one delivery, to a cataloged service whose [range_end] is not
    below the handle. *)
Theorem notification_touches_only_trace (dbg : bool) (value_handle : Handle)
  (value : ByteBuffer) (m m' : Manager)
  (Hret : OnNotification dbg value_handle value m = Returned m') :
  services_ m' = services_ m
  /\ pending_ m' = pending_ m
  /\ initialized_ m' = initialized_ m
  /\ (trace m' = trace m
      \/ exists svc,
           In svc (values (services_ m))
           /\ value_handle <= range_end (info svc)
           /\ trace m' = trace m ++ [SvcHandleNotification svc value_handle
                                       value]).
Proof.
  apply OnNotification_footprint in Hret.
  destruct Hret as [->|[k [svc [Hin [Hle ->]]]]]; simpl.
  - repeat split. now left.
  - repeat split. right. exists svc. repeat split; [|exact Hle].
    unfold values. apply in_map_iff. exists (k, svc). now split.
Qed.

Lemma notification_touches_only_trace_witness :
  OnNotification false 12 [] ex_discovered
  = Returned (emit (SvcHandleNotification svc_a 12 []) ex_discovered)
  /\ services_ (emit (SvcHandleNotification svc_a 12 []) ex_discovered)
     = services_ ex_discovered.
Proof.
  split; [reflexivity|].
  exact (proj1 (notification_touches_only_trace false 12 [] ex_discovered
                  _ eq_refl)).
Defined.

(** X17.  When some cataloged service starts at or before the handle, the
    debug assertion does not fail and a notification is only ever delivered
    to a cataloged service whose range holds the handle; if no cataloged
    range holds the handle, the notification is dropped. *)
Theorem notification_never_misdelivered (dbg : bool) (value_handle : Handle)
  (value : ByteBuffer) (m : Manager)
  (k0 : Handle) (svc0 : RemoteService) (rest : ServiceMap)
  (Hok : catalog_ok (services_ m) = true)
  (Hfirst : services_ m = (k0, svc0) :: rest)
  (Hle : k0 <= value_handle) :
  OnNotification dbg value_handle value m <> DebugAssertFailed
  /\ (forall m',
        OnNotification dbg value_handle value m = Returned m' ->
        m' = m
        \/ exists svc,
             In svc (values (services_ m))
             /\ handle svc <= value_handle <= range_end (info svc)
             /\ m' = emit (SvcHandleNotification svc value_handle value) m)
  /\ ((forall svc, In svc (values (services_ m)) ->
         ~ (handle svc <= value_handle <= range_end (info svc))) ->
      OnNotification dbg value_handle value m = Returned m).
Proof.
  destruct (OnNotification_routes dbg value_handle value m k0 svc0 rest
              Hok Hfirst Hle) as [c [Hc [Hcle [_ Hres]]]].
  assert (Hcv : In c (values (services_ m))).
  { unfold values. apply in_map_iff. exists (handle c, c). now split. }
  rewrite Hres. split; [discriminate|]. split.
  - intros m' [= <-].
    destruct (value_handle <=? range_end (info c)) eqn:Hhi; [|now left].
    right. exists c. apply Z.leb_le in Hhi. repeat split; assumption.
  - intro Hnone.
    destruct (value_handle <=? range_end (info c)) eqn:Hhi; [|reflexivity].
    apply Z.leb_le in Hhi. exfalso. apply (Hnone c Hcv). now split.
Qed.

Lemma notification_never_misdelivered_witness :
  catalog_ok (services_ ex_discovered) = true
  /\ services_ ex_discovered = (10, svc_a) :: [(20, svc_b)]
  /\ 10 <= 17
  /\ OnNotification true 17 [] ex_discovered <> DebugAssertFailed.
Proof.
  split; [reflexivity|]. split; [reflexivity|]. split; [lia|].
  exact (proj1 (notification_never_misdelivered true 17 [] ex_discovered
                  10 svc_a [(20, svc_b)] eq_refl eq_refl ltac:(lia))).
Defined.

(** X18.  When the handle of a notification is below the start handle of the
    first cataloged service, the router keeps that first service as its
    candidate: with the debug assertion compiled in the assertion fails, and
    without it the notification is delivered to the first service whenever
    that service's range is well formed. *)
Theorem notification_below_first_service (value_handle : Handle)
  (value : ByteBuffer) (m : Manager)
  (k0 : Handle) (svc0 : RemoteService) (rest : ServiceMap)
  (Hfirst : services_ m = (k0, svc0) :: rest)
  (Hkey : k0 = handle svc0)
  (Hbelow : value_handle < k0) :
  OnNotification true value_handle value m = DebugAssertFailed
  /\ (k0 <= range_end (info svc0) ->
      OnNotification false value_handle value m
      = Returned (emit (SvcHandleNotification svc0 value_handle value) m)).
Proof.
  now apply (OnNotification_below_first value_handle value m k0 svc0 rest).
Qed.

Lemma notification_below_first_service_witness :
  services_ ex_discovered = (10, svc_a) :: [(20, svc_b)]
  /\ 10 = handle svc_a
  /\ 3 < 10
  /\ OnNotification true 3 [] ex_discovered = DebugAssertFailed.
Proof.
  split; [reflexivity|]. split; [reflexivity|]. split; [lia|].
  exact (proj1 (notification_below_first_service 3 [] ex_discovered
                  10 svc_a [(20, svc_b)] eq_refl eq_refl ltac:(lia))).
Defined.

(** ** A whole initialization *)

Lemma count_success_events_user m :
  count_events is_user_init_cb (success_events m) = 1%nat.
Proof.
  unfold success_events. rewrite !count_events_app.
  rewrite (count_events_map_none _ (resolved Success (services_ m)))
    by reflexivity.
  destruct (svc_watcher_ m); [|reflexivity].
  now rewrite count_events_map_none.
Qed.

(** X19.  Whatever the client replies to the MTU exchange and to the
    discovery requests, an initialization on a manager that stays alive calls
    the caller's completion exactly once, with the status of the first step
    that failed (success if none did, "unsupported group type" in the
    secondary phase counting as success), and ends initialized with an empty
    queue. *)
Theorem Initialize_completes_exactly_once (uuids : list UUID)
  (mtu_status : Status) (mtu : Z) (primary secondary : DiscoveryReply)
  (m : Manager) (Hlive : weak_valid m = true) :
  let m' := run_Initialize uuids mtu_status mtu primary secondary m in
  count_events is_user_init_cb (trace m')
  = S (count_events is_user_init_cb (trace m))
  /\ In (UserInitCb
           (reported_status mtu_status (result primary) (result secondary)))
        (trace m')
  /\ initialized_ m' = true
  /\ pending_ m' = []
  /\ weak_valid m' = true.
Proof.
  unfold run_Initialize, Initialize.
  assert (Hone : forall p e l,
            count_events p (l ++ [e])
            = (count_events p l + (if p e then 1 else 0))%nat).
  { intros p e l. rewrite count_events_app. unfold count_events at 2.
    simpl. now destruct (p e). }
  destruct (is_success mtu_status) eqn:Hm.
  - rewrite exchange_mtu_cb_success by (assumption || reflexivity).
    change (weak_valid (emit _ (emit ClientExchangeMTU m)))
      with (weak_valid m).
    rewrite Hlive. cbv [andb negb].
    set (m2 := deliver (found primary) _).
    assert (H2 : weak_valid m2 = true)
      by (unfold m2; now rewrite deliver_weak_valid).
    assert (T2 : count_events is_user_init_cb (trace m2)
                 = count_events is_user_init_cb (trace m)).
    { unfold m2. rewrite deliver_trace. simpl. rewrite !Hone.
      destruct uuids; simpl; lia. }
    destruct (is_success (result primary)) eqn:Hp.
    + rewrite primary_discov_cb_success by assumption.
      change (weak_valid (emit _ m2)) with (weak_valid m2).
      rewrite H2. cbv [andb].
      set (m4 := deliver (found secondary) _).
      assert (H4 : weak_valid m4 = true)
        by (unfold m4; now rewrite deliver_weak_valid).
      assert (T4 : count_events is_user_init_cb (trace m4)
                   = count_events is_user_init_cb (trace m)).
      { unfold m4. rewrite deliver_trace. simpl. rewrite Hone, T2.
        destruct uuids; simpl; lia. }
      unfold secondary_discov_cb.
      set (st := if is_protocol_error (result secondary)
                    && (protocol_error (result secondary)
                        =? kUnsupportedGroupType)
                 then Success else result secondary).
      destruct (is_success st) eqn:Hs.
      * apply is_success_Success in Hs. rewrite Hs.
        rewrite status_cb_wrapper_success by exact H4. simpl.
        rewrite count_events_app, count_success_events_user, T4.
        repeat split; [lia|].
        unfold reported_status. rewrite Hm, Hp. simpl negb. cbv iota.
        fold st. rewrite Hs.
        apply in_or_app. right. unfold success_events.
        apply in_or_app. right. simpl. right. now left.
      * rewrite status_cb_wrapper_failure by assumption. simpl.
        rewrite !count_events_app, count_failure_events_user, T4.
        rewrite count_events_map_none by reflexivity.
        repeat split; [lia|].
        unfold reported_status. rewrite Hm, Hp. simpl negb. cbv iota.
        fold st.
        apply in_or_app. right. apply in_or_app. right.
        unfold failure_events. simpl. right. now left.
    + rewrite primary_discov_cb_failure, status_cb_wrapper_failure
        by assumption.
      simpl.
      rewrite !count_events_app, count_failure_events_user, T2.
      rewrite count_events_map_none by reflexivity.
      repeat split; [lia|].
      unfold reported_status. rewrite Hm, Hp. simpl negb. cbv iota.
      apply in_or_app. right. apply in_or_app. right.
      unfold failure_events. simpl. right. now left.
  - rewrite exchange_mtu_cb_failure by (assumption || reflexivity).
    rewrite andb_false_r.
    simpl. rewrite !count_events_app, count_failure_events_user.
    change (count_events is_user_init_cb [ClientExchangeMTU]) with 0%nat.
    repeat split; [lia|].
    unfold reported_status. rewrite Hm. simpl negb. cbv iota.
    apply in_or_app. right. unfold failure_events. simpl. right. now left.
Qed.

Lemma Initialize_completes_exactly_once_witness :
  weak_valid construct = true
  /\ In (UserInitCb (HostErr kLinkDisconnected))
       (trace (run_Initialize [] Success 23
                 (mkDiscoveryReply [(data_a, true)]
                    (HostErr kLinkDisconnected))
                 (mkDiscoveryReply [] Success) construct)).
Proof.
  split; [reflexivity|].
  exact (proj1 (proj2
    (Initialize_completes_exactly_once [] Success 23
       (mkDiscoveryReply [(data_a, true)] (HostErr kLinkDisconnected))
       (mkDiscoveryReply [] Success) construct eq_refl))).
Defined.

(** ** The catalog does not depend on the order of discovery *)

Lemma deliver_catalog_ok ds m :
  catalog_ok (services_ m) = true ->
  catalog_ok (services_ (deliver ds m)) = true.
Proof.
  unfold deliver. revert m; induction ds as [|d ds IH]; intros m H; simpl.
  - exact H.
  - apply IH. apply (step_catalog_ok m); [apply step_svc_cb|exact H].
Qed.

(** Two ordered maps that answer every lookup alike are the same list. *)
Lemma ordered_map_ext (s1 s2 : ServiceMap) :
  keys_ascending (map fst s1) = true ->
  keys_ascending (map fst s2) = true ->
  (forall h, map_find h s1 = map_find h s2) ->
  s1 = s2.
Proof.
  revert s2; induction s1 as [|[k1 v1] s1 IH]; intros s2 H1 H2 Hext.
  - destruct s2 as [|[k2 v2] s2]; [reflexivity|].
    specialize (Hext k2). simpl in Hext. rewrite Z.eqb_refl in Hext.
    discriminate.
  - destruct s2 as [|[k2 v2] s2].
    + specialize (Hext k1). simpl in Hext. rewrite Z.eqb_refl in Hext.
      discriminate.
    + simpl in H1, H2.
      apply keys_ascending_cons in H1. destruct H1 as [Hall1 Hasc1].
      apply keys_ascending_cons in H2. destruct H2 as [Hall2 Hasc2].
      assert (Hnone1 : map_find k1 s1 = None).
      { apply map_find_None. intro Hin. specialize (Hall1 _ Hin). lia. }
      assert (Hnone2 : map_find k2 s2 = None).
      { apply map_find_None. intro Hin. specialize (Hall2 _ Hin). lia. }
      assert (Hk : k1 = k2).
      { pose proof (Hext k1) as E1. pose proof (Hext k2) as E2.
        simpl in E1, E2. rewrite Z.eqb_refl in E1, E2.
        destruct (k1 =? k2) eqn:Heq; [now apply Z.eqb_eq|].
        assert (Heq' : (k2 =? k1) = false)
          by (rewrite Z.eqb_sym; exact Heq).
        rewrite Heq' in E2.
        symmetry in E1. apply map_find_In in E1. apply map_find_In in E2.
        apply (in_map fst) in E1. apply (in_map fst) in E2.
        simpl in E1, E2.
        specialize (Hall1 _ E2). specialize (Hall2 _ E1). lia. }
      subst k2.
      assert (Hv : v1 = v2).
      { specialize (Hext k1). simpl in Hext. rewrite Z.eqb_refl in Hext.
        congruence. }
      subst v2. f_equal. apply IH; try assumption.
      intro h. specialize (Hext h). simpl in Hext.
      destruct (h =? k1) eqn:Heq; [|exact Hext].
      apply Z.eqb_eq in Heq; subst h. now rewrite Hnone1, Hnone2.
Qed.

Lemma find_unique {A : Type} (key : A -> Z) (p : A -> bool) (l : list A) x :
  NoDup (map key l) ->
  In x l -> p x = true ->
  (forall y, In y l -> p y = true -> key y = key x) ->
  find p l = Some x.
Proof.
  induction l as [|a l IH]; intros Hnd Hin Hp Hk; [destruct Hin|].
  simpl in Hnd. inversion Hnd as [|? ? Hnotin Hnd']; subst. simpl.
  destruct Hin as [->|Hin].
  - now rewrite Hp.
  - destruct (p a) eqn:Hpa.
    + exfalso. apply Hnotin.
      rewrite (Hk a (or_introl eq_refl) Hpa). now apply in_map.
    + apply IH; try assumption.
      intros y Hy. apply Hk. now right.
Qed.

Lemma first_reported_same_reports h (ds1 ds2 : list (ServiceData * bool)) :
  NoDup (map (fun d => range_start (fst d)) ds2) ->
  (forall d, In d ds1 -> In d ds2) ->
  (forall d, In d ds2 -> In d ds1) ->
  first_reported h ds1 = first_reported h ds2.
Proof.
  intros Hnd H12 H21. unfold first_reported.
  set (p := fun d : ServiceData * bool => (range_start (fst d) =? h) && snd d).
  destruct (find p ds1) as [x|] eqn:Hf.
  - apply find_some in Hf. destruct Hf as [Hin Hp].
    rewrite (find_unique (fun d => range_start (fst d)) p ds2 x Hnd
               (H12 _ Hin) Hp).
    + reflexivity.
    + intros y _ Hy. unfold p in Hp, Hy.
      apply andb_true_iff in Hp. apply andb_true_iff in Hy.
      destruct Hp as [Hp _], Hy as [Hy _].
      apply Z.eqb_eq in Hp. apply Z.eqb_eq in Hy. congruence.
  - destruct (find p ds2) as [y|] eqn:Hf2; [|reflexivity].
    apply find_some in Hf2. destruct Hf2 as [Hin Hp].
    pose proof (find_none _ _ Hf _ (H21 _ Hin)) as Hn. congruence.
Qed.

(** X20.  The catalog a live manager ends up with does not depend on the
    order in which the client reports the services: two reports that hold the
    same descriptors, no two of them with the same start handle, lead to the
    same catalog, entry for entry and in the same order. *)
Theorem catalog_independent_of_report_order
  (ds1 ds2 : list (ServiceData * bool)) (m : Manager)
  (Hlive : weak_valid m = true)
  (Hok : catalog_ok (services_ m) = true)
  (Hdistinct : NoDup (map (fun d => range_start (fst d)) ds2))
  (Hsame : forall d, In d ds1 <-> In d ds2) :
  services_ (deliver ds1 m) = services_ (deliver ds2 m).
Proof.
  apply ordered_map_ext.
  - pose proof (deliver_catalog_ok ds1 m Hok) as H.
    unfold catalog_ok in H. now apply andb_true_iff in H.
  - pose proof (deliver_catalog_ok ds2 m Hok) as H.
    unfold catalog_ok in H. now apply andb_true_iff in H.
  - intro h.
    pose proof (deliver_find ds1 h m Hlive) as E1.
    pose proof (deliver_find ds2 h m Hlive) as E2.
    unfold FindService in E1, E2. rewrite E1, E2.
    destruct (map_find h (services_ m)); [reflexivity|].
    apply first_reported_same_reports; [exact Hdistinct| |];
      intros d Hd; now apply Hsame.
Qed.

Lemma catalog_independent_of_report_order_witness :
  weak_valid construct = true
  /\ catalog_ok (services_ construct) = true
  /\ services_ (deliver [(data_a, true); (data_b, true)] construct)
     = services_ (deliver [(data_b, true); (data_a, true)] construct).
Proof.
  split; [reflexivity|]. split; [reflexivity|].
  apply catalog_independent_of_report_order.
  - reflexivity.
  - reflexivity.
  - repeat constructor; simpl; intuition discriminate.
  - intro d. simpl. tauto.
Defined.
